(** * Retry-driven convergence checks of the k8s operations layer

    A shallow embedding of the polling validators, the pod queries and
    the node operations of package [k8s] (sched-ops), with the
    properties its specification states about them.

    Reading guide.
    - A Go call either returns or panics; a call run under the bounded
      retry executor may, on the virtual clock used here, also never
      come back.  [go A] records which.
    - The receiver [k *k8sOps] and the cluster behind it are one value
      of type [World], threaded through every operation ([M A]).
    - The API server is an in-memory object store together with a
      script of injected faults, one entry per request. *)

From Stdlib Require Import ZArith Lia Bool List Ascii String DecimalString.
From stdpp Require Import gmap strings.
Import ListNotations.

Local Open Scope Z_scope.
Local Open Scope string_scope.
Local Open Scope list_scope.

Set Default Proof Using "Type".

(* ================================================================== *)
(** * Go values *)
(* ================================================================== *)

(** Outcome of a Go call. *)
Inductive go (A : Type) : Type :=
| Return (a : A)
| Panic (reason : string)
| Diverge.

Arguments Return {A} a.
Arguments Panic {A} reason.
Arguments Diverge {A}.

Definition nilDeref : string := "invalid memory address or nil pointer dereference".
Definition nilMapWrite : string := "assignment to entry in nil map".

(** [int32] arithmetic wraps around. *)
Definition wrap32 (z : Z) : Z := (z + 2 ^ 31) mod 2 ^ 32 - 2 ^ 31.

(** [time.Duration] counts nanoseconds. *)
Definition Duration := Z.
Definition Second : Duration := 1000000000.
Definition Minute : Duration := 60 * Second.

(** The values the poll bodies hand back as their [interface{}] result. *)
Inductive iface : Type :=
| INil
| IString (s : string).

Definition quote : string := String (ascii_of_nat 34) EmptyString.
Definition newline : ascii := ascii_of_nat 10.

(* ================================================================== *)
(** * API objects (the fields the code reads) *)
(* ================================================================== *)

Definition UID := string.

Record OwnerReference := {
  or_Name : string;
  or_UID : UID;
  or_Controller : option bool            (* *bool *)
}.

Record ContainerStateRunning := { StartedAt : Z }.

Record ContainerState := {
  Running : option ContainerStateRunning (* *ContainerStateRunning *)
}.

Record ContainerStatus := {
  cs_Name : string;
  cs_State : ContainerState;
  cs_Ready : bool
}.

Record PersistentVolumeClaimVolumeSource := { ClaimName : string }.

Record Volume := {
  vol_Name : string;
  vol_PersistentVolumeClaim : option PersistentVolumeClaimVolumeSource
}.

Record Pod := {
  pod_Name : string;
  pod_Namespace : string;
  pod_UID : UID;
  pod_OwnerReferences : list OwnerReference;
  pod_InitContainerStatuses : list ContainerStatus;
  pod_ContainerStatuses : list ContainerStatus;
  pod_HostIP : string
}.

Definition PersistentVolumeAccessMode := string.
Definition ReadWriteOnce : PersistentVolumeAccessMode := "ReadWriteOnce".
Definition ReadOnlyMany : PersistentVolumeAccessMode := "ReadOnlyMany".
Definition ReadWriteMany : PersistentVolumeAccessMode := "ReadWriteMany".

Record PersistentVolumeClaim := {
  pvc_Name : string;
  pvc_Namespace : string;
  pvc_AccessModes : list PersistentVolumeAccessMode
}.

Record Deployment := {
  dep_Name : string;
  dep_Namespace : string;
  dep_UID : UID;
  dep_Replicas : option Z;               (* Spec.Replicas, *int32 *)
  dep_Volumes : list Volume;             (* Spec.Template.Spec.Volumes *)
  dep_AvailableReplicas : Z;             (* Status, int32 *)
  dep_ReadyReplicas : Z
}.

Record StatefulSet := {
  ss_Name : string;
  ss_Namespace : string;
  ss_UID : UID;
  ss_Replicas : option Z;                (* Spec.Replicas, *int32 *)
  ss_Volumes : list Volume;              (* Spec.Template.Spec.Volumes *)
  ss_StatusReplicas : Z;
  ss_StatusReadyReplicas : Z
}.

Record ReplicaSet := {
  rs_Name : string;
  rs_Namespace : string;
  rs_UID : UID;
  rs_OwnerReferences : list OwnerReference
}.

Record Job := {
  job_Name : string;
  job_Namespace : string;
  job_Active : Z;                        (* Status, int32 *)
  job_Succeeded : Z;
  job_Failed : Z
}.

Record Node := {
  node_Name : string;
  node_Labels : option (gmap string string);   (* a Go map; [None] is the nil map *)
  node_Unschedulable : bool
}.

(* ================================================================== *)
(** * Errors *)
(* ================================================================== *)

(** Modelled from the spec: the error values [ErrAppNotReady] and
    [ErrAppNotTerminated] (section 7: a resource identifier and a cause),
    whose declarations are not among the sources.  [ErrPodsNotFound] and
    the [fmt.Errorf] errors are those of the source.  The text of a
    cause is kept as the data it is formatted from. *)
Inductive error : Type :=
| ErrPodsNotFound                                   (* the package variable *)
| ErrorString (msg : string)                        (* fmt.Errorf, and errors of the API client *)
| ErrAppNotReady (ID : string) (cause : Cause)
| ErrAppNotTerminated (ID : string) (cause : Cause)
with Cause : Type :=
| FailedToGetPods (kind : string) (err : option error)
| HasZeroPods (kind : string)
| ExpectedAvailable (required available : Z) (overview : string)
| ExpectedReady (required ready : Z) (overview : string)
| ExpectedObserved (required observed : Z) (overview : string)
| PodsNotYetReady (notReadyPods : list string)
| PodNotYetReady (name : string)
| PodsStillPresent (pods : list Pod).

(* ================================================================== *)
(** * Pod queries *)
(* ================================================================== *)

Definition isRunning (c : ContainerStatus) : bool :=
  match Running (cs_State c) with Some _ => true | None => false end.

Definition IsPodRunning (pod : Pod) : bool :=
  if existsb isRunning (pod_InitContainerStatuses pod) then false
  else if existsb (fun c => negb (isRunning c)) (pod_ContainerStatuses pod) then false
  else true.

Definition IsPodReady (pod : Pod) : bool :=
  if existsb isRunning (pod_InitContainerStatuses pod) then false
  else if existsb (fun c => if negb (isRunning c) then true else negb (cs_Ready c))
                  (pod_ContainerStatuses pod) then false
  else true.

Fixpoint anyController (owners : list OwnerReference) : go bool :=
  match owners with
  | [] => Return false
  | owner :: rest =>
      match or_Controller owner with
      | None => Panic nilDeref                       (* *owner.Controller *)
      | Some true => Return true
      | Some false => anyController rest
      end
  end.

Definition IsPodBeingManaged (pod : Pod) : go bool :=
  if (length (pod_OwnerReferences pod) =? 0)%nat then Return false
  else anyController (pod_OwnerReferences pod).

Definition boolString (b : bool) : string := if b then "true" else "false".

Definition generatePodsOverviewString (pods : list Pod) : string :=
  fold_left
    (fun (buffer : string) p =>
       let running := IsPodRunning p in
       let ready := IsPodReady p in
       (buffer ++ "  pod name:" ++ pod_Name p ++ " namespace:" ++ pod_Namespace p
               ++ " running:" ++ boolString running ++ " ready:" ++ boolString ready
               ++ " node:" ++ pod_HostIP p ++ String newline EmptyString)%string)
    pods "".

(* ================================================================== *)
(** * The cluster behind the client *)
(* ================================================================== *)

(** Modelled from the spec: the Cluster API (section 6), the external
    collaborator reached through [k.client].  Its sources (client-go and
    the API server) are not part of the package.  The object store keeps
    one list per resource kind; every request consumes one entry of the
    fault script and fails with that entry's message when there is one.
    An error of the API client is identified by its message. *)
Record Cluster := {
  nodes : list Node;
  pods : list Pod;
  replicaSets : list ReplicaSet;
  deployments : list Deployment;
  statefulSets : list StatefulSet;
  persistentVolumeClaims : list PersistentVolumeClaim;
  jobs : list Job
}.

Record World := {
  client : bool;                          (* k.client != nil *)
  cluster : Cluster;
  faults : list (option string)
}.

Definition set_nodes (ns : list Node) (c : Cluster) : Cluster :=
  {| nodes := ns; pods := pods c; replicaSets := replicaSets c;
     deployments := deployments c; statefulSets := statefulSets c;
     persistentVolumeClaims := persistentVolumeClaims c; jobs := jobs c |}.

Definition set_pods (ps : list Pod) (c : Cluster) : Cluster :=
  {| nodes := nodes c; pods := ps; replicaSets := replicaSets c;
     deployments := deployments c; statefulSets := statefulSets c;
     persistentVolumeClaims := persistentVolumeClaims c; jobs := jobs c |}.

(** State and panic monad of the package's methods. *)
Definition M (A : Type) : Type := World -> go A * World.

Definition ret {A} (a : A) : M A := fun w => (Return a, w).

Definition panic {A} (reason : string) : M A := fun w => (Panic reason, w).

Definition bind {A B} (m : M A) (f : A -> M B) : M B :=
  fun w =>
    match m w with
    | (Return a, w') => f a w'
    | (Panic r, w') => (Panic r, w')
    | (Diverge, w') => (Diverge, w')
    end.

Notation "x <- m ;; k" := (bind m (fun x => k))
  (at level 100, m at next level, right associativity).

(** Modelled from the spec: one request to the Cluster API, answered
    from the store unless the fault script says otherwise. *)
Definition request {A} (serve : Cluster -> (A + string) * Cluster) : M (A + string) :=
  fun w =>
    match faults w with
    | Some msg :: rest =>
        (Return (inr msg), {| client := client w; cluster := cluster w; faults := rest |})
    | None :: rest =>
        let '(r, c) := serve (cluster w) in
        (Return r, {| client := client w; cluster := c; faults := rest |})
    | [] =>
        let '(r, c) := serve (cluster w) in
        (Return r, {| client := client w; cluster := c; faults := [] |})
    end.

(** Modelled from the spec: the message of the Cluster API's "not
    found" condition. *)
Definition notFound (resource name : string) : string :=
  (resource ++ " " ++ quote ++ name ++ quote ++ " not found")%string.

Definition inNamespace (namespace ns : string) : bool :=
  String.eqb namespace "" || String.eqb ns namespace.

(** Modelled from the spec: [Get] on nodes. *)
Definition nodes_Get (name : string) : M (Node + string) :=
  request (fun c =>
    match find (fun n => String.eqb (node_Name n) name) (nodes c) with
    | Some n => (inl n, c)
    | None => (inr (notFound "nodes" name), c)
    end).

(** Modelled from the spec: [Update] on nodes. *)
Definition nodes_Update (n : Node) : M (Node + string) :=
  request (fun c =>
    if existsb (fun m => String.eqb (node_Name m) (node_Name n)) (nodes c)
    then (inl n,
          set_nodes (map (fun m => if String.eqb (node_Name m) (node_Name n) then n else m)
                         (nodes c)) c)
    else (inr (notFound "nodes" (node_Name n)), c)).

(** Modelled from the spec: [List] on pods; the empty namespace lists
    all namespaces. *)
Definition pods_List (namespace : string) : M (list Pod + string) :=
  request (fun c =>
    (inl (List.filter (fun p => inNamespace namespace (pod_Namespace p)) (pods c)), c)).

Definition isPod (namespace name : string) (p : Pod) : bool :=
  String.eqb (pod_Namespace p) namespace && String.eqb (pod_Name p) name.

(** Modelled from the spec: [Delete] on pods. *)
Definition pods_Delete (namespace name : string) : M (unit + string) :=
  request (fun c =>
    if existsb (isPod namespace name) (pods c)
    then (inl tt, set_pods (List.filter (fun p => negb (isPod namespace name p)) (pods c)) c)
    else (inr (notFound "pods" name), c)).

(** Modelled from the spec: [List] on replica sets. *)
Definition replicaSets_List (namespace : string) : M (list ReplicaSet + string) :=
  request (fun c =>
    (inl (List.filter (fun r => inNamespace namespace (rs_Namespace r)) (replicaSets c)), c)).

(** Modelled from the spec: [Get] on deployments, stateful sets,
    persistent volume claims and jobs. *)
Definition deployments_Get (namespace name : string) : M (Deployment + string) :=
  request (fun c =>
    match find (fun d => String.eqb (dep_Namespace d) namespace && String.eqb (dep_Name d) name)
               (deployments c) with
    | Some d => (inl d, c)
    | None => (inr (notFound "deployments.apps" name), c)
    end).

Definition statefulSets_Get (namespace name : string) : M (StatefulSet + string) :=
  request (fun c =>
    match find (fun s => String.eqb (ss_Namespace s) namespace && String.eqb (ss_Name s) name)
               (statefulSets c) with
    | Some s => (inl s, c)
    | None => (inr (notFound "statefulsets.apps" name), c)
    end).

Definition persistentVolumeClaims_Get (namespace name : string)
  : M (PersistentVolumeClaim + string) :=
  request (fun c =>
    match find (fun p => String.eqb (pvc_Namespace p) namespace && String.eqb (pvc_Name p) name)
               (persistentVolumeClaims c) with
    | Some p => (inl p, c)
    | None => (inr (notFound "persistentvolumeclaims" name), c)
    end).

Definition jobs_Get (namespace name : string) : M (Job + string) :=
  request (fun c =>
    match find (fun j => String.eqb (job_Namespace j) namespace && String.eqb (job_Name j) name)
               (jobs c) with
    | Some j => (inl j, c)
    | None => (inr (notFound "jobs.batch" name), c)
    end).

(** Modelled from the spec: loading the client configuration and
    probing the server, the two steps of [initK8sClient] that can fail;
    they belong to the initialization collaborator of section 6. *)
Definition getK8sClient : M (unit + string) := request (fun c => (inl tt, c)).
Definition ServerVersion : M (unit + string) := request (fun c => (inl tt, c)).

Definition setClient : M unit :=
  fun w => (Return tt, {| client := true; cluster := cluster w; faults := faults w |}).

(** [regexp.MatchString(".+ not found", s)]: somewhere in [s] a
    character other than a line feed is followed by " not found". *)
Fixpoint matchNotFound (s : string) : bool :=
  match s with
  | EmptyString => false
  | String c rest =>
      (negb (Ascii.eqb c newline) && String.prefix " not found" rest) || matchNotFound rest
  end.

(* ================================================================== *)
(** * The bounded retry executor *)
(* ================================================================== *)

Section Executor.

Context {W : Type}.

(** What the world does while the caller sleeps. *)
Variable sleep : Duration -> W -> W.

Definition Task : Type := W -> go (iface * bool * option error) * W.

(** Modelled from the spec: [task.DoRetryWithTimeout] (section 4.1),
    whose package is not among the sources.  The task is invoked; a
    result that is not transient stops the loop with the task's error;
    a transient one is followed by a sleep of [interval], after which
    the last observed error is returned if the elapsed time has
    reached [timeout], and the task is invoked again otherwise.  The
    clock is virtual: only sleeps advance it, and a sleep of a
    non-positive duration does not.  [fuel] bounds the number of
    further attempts; [attempts] counts the invocations made. *)
Fixpoint retry_loop (fuel : nat) (t : Task) (timeout interval elapsed : Duration)
         (attempts : nat) (w : W) : go (iface * option error * nat) * W :=
  match t w with
  | (Return (out, retry, err), w1) =>
      if negb retry then (Return (out, err, S attempts), w1)
      else
        let w2 := sleep interval w1 in
        let elapsed' := elapsed + Z.max 0 interval in
        if (timeout <=? elapsed')%Z then (Return (out, err, S attempts), w2)
        else
          match fuel with
          | O => (Diverge, w2)
          | S fuel' => retry_loop fuel' t timeout interval elapsed' (S attempts) w2
          end
  | (Panic r, w1) => (Panic r, w1)
  | (Diverge, w1) => (Diverge, w1)
  end.

(** Modelled from the spec: the further attempts a run can need.  For
    a positive [interval] the loop never uses them up
    ([DoRetryTrace_returns]); the callers in this package pass positive
    constants. *)
Definition retryBudget (timeout interval : Duration) : nat :=
  Z.to_nat (timeout / interval).

(** Modelled from the spec: [task.DoRetryWithTimeout] together with
    the number of invocations it made. *)
Definition DoRetryTrace (t : Task) (timeout timeBeforeRetry : Duration)
  : W -> go (iface * option error * nat) * W :=
  retry_loop (retryBudget timeout timeBeforeRetry) t timeout timeBeforeRetry 0 0%nat.

(** Modelled from the spec: [task.DoRetryWithTimeout]. *)
Definition DoRetryWithTimeout (t : Task) (timeout timeBeforeRetry : Duration)
  : W -> go (iface * option error) * W :=
  fun w =>
    match DoRetryTrace t timeout timeBeforeRetry w with
    | (Return (out, err, _), w') => (Return (out, err), w')
    | (Panic r, w') => (Panic r, w')
    | (Diverge, w') => (Diverge, w')
    end.

End Executor.

(* ================================================================== *)
(** * The operations of [k8sOps] *)
(* ================================================================== *)

Definition labelUpdateMaxRetries : nat := 5.
Definition nodeUpdateTimeout : Duration := 1 * Minute.
Definition nodeUpdateRetryInterval : Duration := 2 * Second.
Definition deploymentReadyTimeout : Duration := 10 * Minute.

(** [%d] and [%v] of an integer. *)
Definition formatInt (z : Z) : string := NilZero.string_of_int (Z.to_int z).

(** The nil slice is the empty list. *)
Definition isNil {A} (l : list A) : bool :=
  match l with [] => true | _ :: _ => false end.

Definition isErrPodsNotFound (e : error) : bool :=
  match e with ErrPodsNotFound => true | _ => false end.

Definition set_Unschedulable (b : bool) (n : Node) : Node :=
  {| node_Name := node_Name n; node_Labels := node_Labels n; node_Unschedulable := b |}.

Definition set_Labels (labels : gmap string string) (n : Node) : Node :=
  {| node_Name := node_Name n; node_Labels := Some labels;
     node_Unschedulable := node_Unschedulable n |}.

(** A result [(x, err)] whose callers read [x] only when [err] is nil
    is a sum; the others are pairs, as in the source. *)
Definition initK8sClient : M (option error) :=
  fun w =>
    if client w then ret None w
    else
      (r <- getK8sClient ;;
       match r with
       | inr e => ret (Some (ErrorString e))
       | inl _ =>
           r <- ServerVersion ;;
           match r with
           | inr e => ret (Some (ErrorString ("failed to connect to k8s server: " ++ e)%string))
           | inl _ => u <- setClient ;; ret None
           end
       end) w.

Definition GetNodeByName (name : string) : M (Node + error) :=
  err <- initK8sClient ;;
  match err with
  | Some e => ret (inr e)
  | None =>
      r <- nodes_Get name ;;
      match r with
      | inr e => ret (inr (ErrorString e))
      | inl node => ret (inl node)
      end
  end.

Fixpoint addLabelLoop (remaining : nat) (err : option error) (name key value : string)
  : M (option error) :=
  match remaining with
  | O => ret err                        (* the outer [err], which no iteration assigns *)
  | S remaining' =>
      r <- nodes_Get name ;;
      match r with
      | inr e => ret (Some (ErrorString e))
      | inl node =>
          let present_and_equal :=
            match node_Labels node with
            | Some labels =>
                match labels !! key with
                | Some val => String.eqb val value
                | None => false
                end
            | None => false
            end in
          if present_and_equal then ret None
          else
            match node_Labels node with
            | None => panic nilMapWrite
            | Some labels =>
                r <- nodes_Update (set_Labels (<[key := value]> labels) node) ;;
                match r with
                | inl _ => ret None
                | inr _ => addLabelLoop remaining' err name key value
                end
            end
      end
  end.

Definition AddLabelOnNode (name key value : string) : M (option error) :=
  let err : option error := None in
  e <- initK8sClient ;;
  match e with
  | Some e => ret (Some e)
  | None => addLabelLoop labelUpdateMaxRetries err name key value
  end.

Definition GetPods (namespace : string) : M (list Pod + error) :=
  err <- initK8sClient ;;
  match err with
  | Some e => ret (inr e)
  | None =>
      r <- pods_List namespace ;;
      match r with
      | inr e => ret (inr (ErrorString e))
      | inl items => ret (inl items)
      end
  end.

Definition appendOwned (ownerUID : UID) (items : list Pod) : list Pod :=
  fold_left
    (fun result pod =>
       fold_left
         (fun result owner =>
            if String.eqb (or_UID owner) ownerUID then result ++ [pod] else result)
         (pod_OwnerReferences pod) result)
    items [].

Definition GetPodsByOwner (ownerUID : UID) (namespace : string)
  : M (list Pod * option error) :=
  r <- GetPods namespace ;;
  match r with
  | inr e => ret ([], Some e)
  | inl items =>
      let result := appendOwned ownerUID items in
      if (length result =? 0)%nat then ret ([], Some ErrPodsNotFound)
      else ret (result, None)
  end.

Definition GetPodByUID (uid : UID) (namespace : string) : M (option Pod * option error) :=
  r <- GetPods namespace ;;
  match r with
  | inr e => ret (None, Some e)
  | inl items =>
      match find (fun pod => String.eqb (pod_UID pod) uid) items with
      | Some pod => ret (Some pod, None)
      | None => ret (None, Some ErrPodsNotFound)
      end
  end.

Fixpoint deleteEach (pods : list Pod) : M (option error) :=
  match pods with
  | [] => ret None
  | pod :: rest =>
      r <- pods_Delete (pod_Namespace pod) (pod_Name pod) ;;
      match r with
      | inr e => ret (Some (ErrorString e))
      | inl _ => deleteEach rest
      end
  end.

(** [force] only shortens the grace period, which the object store
    does not keep. *)
Definition DeletePods (pods : list Pod) (force : bool) : M (option error) :=
  err <- initK8sClient ;;
  match err with
  | Some e => ret (Some e)
  | None => deleteEach pods
  end.

Definition isPVCShared (pvc : PersistentVolumeClaim) : bool :=
  existsb (fun mode => String.eqb mode ReadOnlyMany || String.eqb mode ReadWriteMany)
          (pvc_AccessModes pvc).

(** The loop of [ValidateDeployment] over the template's volumes:
    [inr (shared, foundPVC)] when it ends, [inl err] when fetching a
    claim fails. *)
Fixpoint scanVolumes (namespace : string) (volumes : list Volume) (foundPVC : bool)
  : M (error + bool * bool) :=
  match volumes with
  | [] => ret (inr (false, foundPVC))
  | vol :: rest =>
      match vol_PersistentVolumeClaim vol with
      | None => scanVolumes namespace rest foundPVC
      | Some source =>
          r <- persistentVolumeClaims_Get namespace (ClaimName source) ;;
          match r with
          | inr e => ret (inl (ErrorString e))
          | inl claim =>
              if isPVCShared claim then ret (inr (true, true))
              else scanVolumes namespace rest true
          end
      end
  end.

(** The replica count [ValidateDeployment] waits for. *)
Definition requiredReplicasOf (dep : Deployment) (declared : Z) : M (error + Z) :=
  let requiredReplicas := declared in
  if negb (requiredReplicas =? 1)%Z then
    r <- scanVolumes (dep_Namespace dep) (dep_Volumes dep) false ;;
    match r with
    | inl e => ret (inl e)
    | inr (shared, foundPVC) =>
        if foundPVC && negb shared then ret (inr 1%Z) else ret (inr requiredReplicas)
    end
  else ret (inr requiredReplicas).

(** The pods that are not ready, and the number of those that are. *)
Definition countReady (pods : list Pod) : list string * Z :=
  fold_left
    (fun acc pod =>
       let '(notReadyPods, readyCount) := acc in
       if negb (IsPodReady pod) then (notReadyPods ++ [pod_Name pod], readyCount)
       else (notReadyPods, wrap32 (readyCount + 1)))
    pods ([], 0%Z).

Definition GetDeploymentPods (deployment : Deployment) : M (list Pod * option error) :=
  err <- initK8sClient ;;
  match err with
  | Some e => ret ([], Some e)
  | None =>
      r <- replicaSets_List (dep_Namespace deployment) ;;
      match r with
      | inr e => ret ([], Some (ErrorString e))
      | inl items =>
          match find (fun rSet =>
                        existsb (fun owner => String.eqb (or_Name owner) (dep_Name deployment))
                                (rs_OwnerReferences rSet)) items with
          | Some rSet => GetPodsByOwner (rs_UID rSet) (rs_Namespace rSet)
          | None => ret ([], None)
          end
      end
  end.

Definition GetStatefulSetPods (statefulset : StatefulSet) : M (list Pod * option error) :=
  GetPodsByOwner (ss_UID statefulset) (ss_Namespace statefulset).

Definition GetJob (name namespace : string) : M (Job + error) :=
  err <- initK8sClient ;;
  match err with
  | Some e => ret (inr e)
  | None =>
      r <- jobs_Get namespace name ;;
      match r with
      | inr e => ret (inr (ErrorString e))
      | inl job => ret (inl job)
      end
  end.

(** What the poll body of [ValidateJob] returns for the status it
    fetched: the checks on [job.Status], in the order of the source. *)
Definition jobVerdict (name namespace : string) (job : Job) : iface * bool * option error :=
  if (job_Failed job >? 0)%Z then
    (INil, false,
     Some (ErrorString ("job: [" ++ namespace ++ "] " ++ name ++ " has "
              ++ formatInt (job_Failed job) ++ " failed pod(s)")%string))
  else if (job_Active job >? 0)%Z then
    (INil, true,
     Some (ErrorString ("job: [" ++ namespace ++ "] " ++ name ++ " still has "
              ++ formatInt (job_Active job) ++ " active pod(s)")%string))
  else if (job_Succeeded job =? 0)%Z then
    (INil, true,
     Some (ErrorString ("job: [" ++ namespace ++ "] " ++ name
              ++ " no pod(s) that have succeeded")%string))
  else (INil, false, None).

Section Polling.

(** What the cluster does while a validator sleeps between polls. *)
Variable sleep : Duration -> World -> World.

(** [if _, err := task.DoRetryWithTimeout(t, ...); err != nil { return err }; return nil] *)
Definition runTask (t : M (iface * bool * option error)) (timeout interval : Duration)
  : M (option error) :=
  r <- DoRetryWithTimeout sleep t timeout interval ;;
  match r with
  | (_, Some e) => ret (Some e)
  | (_, None) => ret None
  end.

Definition CordonNode_t (nodeName : string) : M (iface * bool * option error) :=
  err <- initK8sClient ;;
  match err with
  | Some e => ret (INil, true, Some e)
  | None =>
      r <- GetNodeByName nodeName ;;
      match r with
      | inr e => ret (INil, true, Some e)
      | inl n =>
          r <- nodes_Update (set_Unschedulable true n) ;;
          match r with
          | inr e => ret (INil, true, Some (ErrorString e))
          | inl _ => ret (INil, false, None)
          end
      end
  end.

Definition CordonNode (nodeName : string) : M (option error) :=
  runTask (CordonNode_t nodeName) nodeUpdateTimeout nodeUpdateRetryInterval.

Definition UnCordonNode_t (nodeName : string) : M (iface * bool * option error) :=
  err <- initK8sClient ;;
  match err with
  | Some e => ret (INil, true, Some e)
  | None =>
      r <- GetNodeByName nodeName ;;
      match r with
      | inr e => ret (INil, true, Some e)
      | inl n =>
          r <- nodes_Update (set_Unschedulable false n) ;;
          match r with
          | inr e => ret (INil, true, Some (ErrorString e))
          | inl _ => ret (INil, false, None)
          end
      end
  end.

Definition UnCordonNode (nodeName : string) : M (option error) :=
  runTask (UnCordonNode_t nodeName) nodeUpdateTimeout nodeUpdateRetryInterval.

Definition stillPresent (namespace name : string) (uid : UID) : error :=
  ErrorString ("pod " ++ namespace ++ ":" ++ name ++ " (" ++ uid
                      ++ ") still present in the system")%string.

Definition WaitForPodDeletion_t (uid : UID) (namespace : string)
  : M (iface * bool * option error) :=
  err <- initK8sClient ;;
  match err with
  | Some e => ret (INil, true, Some e)
  | None =>
      r <- GetPodByUID uid namespace ;;
      match r with
      | (_, Some e) =>
          if isErrPodsNotFound e then ret (INil, false, None)
          else ret (INil, true, Some e)
      | (Some p, None) => ret (INil, true, Some (stillPresent namespace (pod_Name p) uid))
      | (None, None) => ret (INil, false, None)
      end
  end.

Definition WaitForPodDeletion (uid : UID) (namespace : string) (timeout : Duration)
  : M (option error) :=
  runTask (WaitForPodDeletion_t uid namespace) timeout (5 * Second).

Fixpoint waitEach (pods : list Pod) (timeout : Duration) : M (option error) :=
  match pods with
  | [] => ret None
  | p :: rest =>
      err <- WaitForPodDeletion (pod_UID p) (pod_Namespace p) timeout ;;
      match err with
      | Some e => ret (Some e)
      | None => waitEach rest timeout
      end
  end.

Definition DrainPodsFromNode (nodeName : string) (pods : list Pod) (timeout : Duration)
  : M (option error) :=
  err <- CordonNode nodeName ;;
  match err with
  | Some e => ret (Some e)
  | None =>
      err <- DeletePods pods false ;;
      match err with
      | Some e =>
          e' <- UnCordonNode nodeName ;;        (* rollback cordon; [e'] is only logged *)
          ret (Some e)
      | None =>
          if (0 <? timeout)%Z then waitEach pods timeout else ret None
      end
  end.

(** The second half of the poll body of [ValidateDeployment], from
    [k.GetDeploymentPods] on: [dep] is the deployment as fetched. *)
Definition deploymentReady (deployment dep : Deployment) (requiredReplicas : Z)
  : M (iface * bool * option error) :=
  p <- GetDeploymentPods deployment ;;
  let '(pods, err) := p in
  if (match err with Some _ => true | None => false end) || isNil pods then
    ret (IString "", true,
         Some (ErrAppNotReady (dep_Name dep) (FailedToGetPods "deployment" err)))
  else if (length pods =? 0)%nat then
    ret (IString "", true, Some (ErrAppNotReady (dep_Name dep) (HasZeroPods "Deployment")))
  else
    let podsOverviewString := generatePodsOverviewString pods in
    if (requiredReplicas >? dep_AvailableReplicas dep)%Z then
      ret (IString "", true,
           Some (ErrAppNotReady (dep_Name dep)
                   (ExpectedAvailable requiredReplicas (dep_AvailableReplicas dep)
                                      podsOverviewString)))
    else if (requiredReplicas >? dep_ReadyReplicas dep)%Z then
      ret (IString "", true,
           Some (ErrAppNotReady (dep_Name dep)
                   (ExpectedReady requiredReplicas (dep_ReadyReplicas dep)
                                  podsOverviewString)))
    else
      let '(notReadyPods, readyCount) := countReady pods in
      if (readyCount >=? requiredReplicas)%Z then ret (IString "", false, None)
      else ret (IString "", true,
                Some (ErrAppNotReady (dep_Name dep) (PodsNotYetReady notReadyPods))).

Definition ValidateDeployment_t (deployment : Deployment) : M (iface * bool * option error) :=
  err <- initK8sClient ;;
  match err with
  | Some e => ret (IString "", true, Some e)
  | None =>
  r <- deployments_Get (dep_Namespace deployment) (dep_Name deployment) ;;
  match r with
  | inr e => ret (IString "", true, Some (ErrorString e))
  | inl dep =>
  match dep_Replicas dep with
  | None => panic nilDeref                             (* *dep.Spec.Replicas *)
  | Some declared =>
  r <- requiredReplicasOf dep declared ;;
  match r with
  | inl e => ret (IString "", true, Some e)
  | inr requiredReplicas => deploymentReady deployment dep requiredReplicas
  end end end end.

Definition ValidateDeployment (deployment : Deployment) : M (option error) :=
  runTask (ValidateDeployment_t deployment) deploymentReadyTimeout (10 * Second).

Definition ValidateTerminatedDeployment_t (deployment : Deployment)
  : M (iface * bool * option error) :=
  err <- initK8sClient ;;
  match err with
  | Some e => ret (IString "", true, Some e)
  | None =>
  r <- deployments_Get (dep_Namespace deployment) (dep_Name deployment) ;;
  match r with
  | inr e =>
      if matchNotFound e then ret (IString "", true, None)
      else ret (IString "", true, Some (ErrorString e))
  | inl dep =>
  p <- GetDeploymentPods deployment ;;
  let '(pods, err) := p in
  match err with
  | Some _ =>
      ret (IString "", true,
           Some (ErrAppNotTerminated (dep_Name dep) (FailedToGetPods "deployment" err)))
  | None =>
      if negb (isNil pods) && (0 <? length pods)%nat then
        ret (IString "", true,
             Some (ErrAppNotTerminated (dep_Name dep) (PodsStillPresent pods)))
      else ret (IString "", false, None)
  end end end.

Definition ValidateTerminatedDeployment (deployment : Deployment) : M (option error) :=
  runTask (ValidateTerminatedDeployment_t deployment) (10 * Minute) (10 * Second).

Definition ValidateJob_t (name namespace : string) : M (iface * bool * option error) :=
  r <- GetJob name namespace ;;
  match r with
  | inr e => ret (INil, true, Some e)
  | inl job => ret (jobVerdict name namespace job)
  end.


(** The first pod that is not ready, if any. *)
Definition firstNotReady (pods : list Pod) : option Pod :=
  find (fun pod => negb (IsPodReady pod)) pods.

Definition ValidateStatefulSet_t (statefulset : StatefulSet)
  : M (iface * bool * option error) :=
  err <- initK8sClient ;;
  match err with
  | Some e => ret (IString "", true, Some e)
  | None =>
  r <- statefulSets_Get (ss_Namespace statefulset) (ss_Name statefulset) ;;
  match r with
  | inr e => ret (IString "", true, Some (ErrorString e))
  | inl sset =>
  p <- GetStatefulSetPods statefulset ;;
  let '(pods, err) := p in
  if (match err with Some _ => true | None => false end) || isNil pods then
    ret (IString "", true,
         Some (ErrAppNotReady (ss_Name sset) (FailedToGetPods "statefulset" err)))
  else if (length pods =? 0)%nat then
    ret (IString "", true, Some (ErrAppNotReady (ss_Name sset) (HasZeroPods "StatefulSet")))
  else
    let podsOverviewString := generatePodsOverviewString pods in
    match ss_Replicas sset with
    | None => panic nilDeref                           (* *sset.Spec.Replicas *)
    | Some replicas =>
        if negb (replicas =? ss_StatusReplicas sset)%Z then
          ret (IString "", true,
               Some (ErrAppNotReady (ss_Name sset)
                       (ExpectedObserved replicas (ss_StatusReplicas sset)
                                         podsOverviewString)))
        else if negb (replicas =? ss_StatusReadyReplicas sset)%Z then
          ret (IString "", true,
               Some (ErrAppNotReady (ss_Name sset)
                       (ExpectedReady replicas (ss_StatusReadyReplicas sset)
                                      podsOverviewString)))
        else
          match firstNotReady pods with
          | Some pod =>
              ret (IString "", true,
                   Some (ErrAppNotReady (ss_Name sset) (PodNotYetReady (pod_Name pod))))
          | None => ret (IString "", false, None)
          end
    end
  end end.

Definition ValidateStatefulSet (statefulset : StatefulSet) (timeout : Duration)
  : M (option error) :=
  runTask (ValidateStatefulSet_t statefulset) timeout (10 * Second).

Definition ValidateTerminatedStatefulSet_t (statefulset : StatefulSet)
  : M (iface * bool * option error) :=
  err <- initK8sClient ;;
  match err with
  | Some e => ret (IString "", true, Some e)
  | None =>
  r <- statefulSets_Get (ss_Namespace statefulset) (ss_Name statefulset) ;;
  match r with
  | inr e =>
      if matchNotFound e then ret (IString "", false, None)
      else ret (IString "", true, Some (ErrorString e))
  | inl sset =>
  p <- GetStatefulSetPods statefulset ;;
  let '(pods, err) := p in
  match err with
  | Some _ =>
      ret (IString "", true,
           Some (ErrAppNotTerminated (ss_Name sset) (FailedToGetPods "statefulset" err)))
  | None =>
      if negb (isNil pods) && (0 <? length pods)%nat then
        ret (IString "", true,
             Some (ErrAppNotTerminated (ss_Name sset) (PodsStillPresent pods)))
      else ret (IString "", false, None)
  end end end.

Definition ValidateTerminatedStatefulSet (statefulset : StatefulSet) : M (option error) :=
  runTask (ValidateTerminatedStatefulSet_t statefulset) (10 * Minute) (10 * Second).

End Polling.

(* ================================================================== *)
(** * Further operations of [k8sOps] *)
(* ================================================================== *)

Definition hostnameKey : string := "kubernetes.io/hostname".

(** [int64] arithmetic wraps around. *)
Definition wrap64 (z : Z) : Z := (z + 2 ^ 63) mod 2 ^ 64 - 2 ^ 63.

Definition divideByZero : string := "integer divide by zero".

(** The arguments are [int64] values; [/] truncates towards zero. *)
Definition roundUpSize (volumeSizeBytes allocationUnitBytes : Z) : go Z :=
  if (allocationUnitBytes =? 0)%Z then Panic divideByZero
  else
    Return (wrap64 (Z.quot (wrap64 (wrap64 (volumeSizeBytes + allocationUnitBytes) - 1))
                           allocationUnitBytes)).

(** Modelled from the spec: [List] on nodes. *)
Definition nodes_List : M (list Node + string) :=
  request (fun c => (inl (nodes c), c)).

Definition GetNodes : M (list Node + error) :=
  err <- initK8sClient ;;
  match err with
  | Some e => ret (inr e)
  | None =>
      r <- nodes_List ;;
      match r with
      | inr e => ret (inr (ErrorString e))
      | inl items => ret (inl items)
      end
  end.

(** The label map, nil or not, and the error. *)
Definition GetLabelsOnNode (name : string)
  : M (option (gmap string string) * option error) :=
  r <- GetNodeByName name ;;
  match r with
  | inr e => ret (None, Some e)
  | inl node => ret (node_Labels node, None)
  end.

(** The loop of [RemoveLabelOnNode]; reading a nil map finds nothing,
    and [delete] is reached only on a map that holds the key. *)
Fixpoint removeLabelLoop (remaining : nat) (err : option error) (name key : string)
  : M (option error) :=
  match remaining with
  | O => ret err                        (* the outer [err], which no iteration assigns *)
  | S remaining' =>
      r <- nodes_Get name ;;
      match r with
      | inr e => ret (Some (ErrorString e))
      | inl node =>
          let present :=
            match node_Labels node with
            | Some labels =>
                match labels !! key with Some _ => true | None => false end
            | None => false
            end in
          if present then
            match node_Labels node with
            | None => removeLabelLoop remaining' err name key
            | Some labels =>
                r <- nodes_Update (set_Labels (delete key labels) node) ;;
                match r with
                | inl _ => ret None
                | inr _ => removeLabelLoop remaining' err name key
                end
            end
          else removeLabelLoop remaining' err name key
      end
  end.

Definition RemoveLabelOnNode (name key : string) : M (option error) :=
  let err : option error := None in
  e <- initK8sClient ;;
  match e with
  | Some e => ret (Some e)
  | None => removeLabelLoop labelUpdateMaxRetries err name key
  end.

(** Conditions and addresses of a node's status, with the constants
    of the API types. *)
Record NodeCondition := {
  cond_Type : string;
  cond_Status : string;
  cond_Message : string;
  cond_Reason : string
}.

Record NodeAddress := {
  addr_Type : string;
  addr_Address : string
}.

Definition NodeReady : string := "Ready".
Definition NodeOutOfDisk : string := "OutOfDisk".
Definition NodeMemoryPressure : string := "MemoryPressure".
Definition NodeDiskPressure : string := "DiskPressure".
Definition NodeNetworkUnavailable : string := "NetworkUnavailable".
Definition ConditionTrue : string := "True".
Definition ConditionFalse : string := "False".
Definition NodeHostName : string := "Hostname".
Definition NodeExternalIP : string := "ExternalIP".
Definition NodeInternalIP : string := "InternalIP".

Definition notReady (name : string) (condition : NodeCondition) : error :=
  ErrorString ("node: " ++ name ++ " is not ready as condition: " ++ cond_Type condition
                 ++ " (" ++ cond_Message condition ++ ") is " ++ cond_Status condition
                 ++ ". Reason: " ++ cond_Reason condition)%string.

(** The loop of [IsNodeReady] over [node.Status.Conditions]. *)
Fixpoint checkConditions (name : string) (conditions : list NodeCondition) : option error :=
  match conditions with
  | [] => None
  | condition :: rest =>
      if String.eqb (cond_Type condition) NodeReady then
        if negb (String.eqb (cond_Status condition) ConditionTrue)
        then Some (notReady name condition)
        else checkConditions name rest
      else if String.eqb (cond_Type condition) NodeOutOfDisk
              || String.eqb (cond_Type condition) NodeMemoryPressure
              || String.eqb (cond_Type condition) NodeDiskPressure
              || String.eqb (cond_Type condition) NodeNetworkUnavailable then
        if negb (String.eqb (cond_Status condition) ConditionFalse)
        then Some (notReady name condition)
        else checkConditions name rest
      else checkConditions name rest
  end.

(** [%v] of a slice of strings. *)
Definition formatStrings (l : list string) : string :=
  ("[" ++ String.concat " " l ++ "]")%string.

Section NodeStatus.

(** [node.Status.Conditions] and [node.Status.Addresses], which the
    node objects of this development do not carry. *)
Variable conditionsOf : Node -> list NodeCondition.
Variable addressesOf : Node -> list NodeAddress.

Definition IsNodeReady (name : string) : M (option error) :=
  r <- GetNodeByName name ;;
  match r with
  | inr e => ret (Some e)
  | inl node => ret (checkConditions name (conditionsOf node))
  end.

(** Sweep #1: an external or internal IP address of the node is one of
    the given addresses. *)
Definition matchesIP (addresses : list string) (node : Node) : bool :=
  existsb (fun addr =>
             (String.eqb (addr_Type addr) NodeExternalIP
              || String.eqb (addr_Type addr) NodeInternalIP)
             && existsb (fun ip => String.eqb (addr_Address addr) ip) addresses)
          (addressesOf node).

(** Sweep #2: a hostname address of the node is one of them. *)
Definition matchesHostname (addresses : list string) (node : Node) : bool :=
  existsb (fun addr =>
             String.eqb (addr_Type addr) NodeHostName
             && existsb (fun ip => String.eqb (addr_Address addr) ip) addresses)
          (addressesOf node).

(** Sweep #3: the hostname label of the node is one of them. *)
Definition matchesLabel (addresses : list string) (node : Node) : bool :=
  match node_Labels node with
  | Some labels =>
      match labels !! hostnameKey with
      | Some hn => existsb (fun ip => String.eqb hn ip) addresses
      | None => false
      end
  | None => false
  end.

Definition SearchNodeByAddresses (addresses : list string) : M (option Node * option error) :=
  r <- GetNodes ;;
  match r with
  | inr e => ret (None, Some e)
  | inl items =>
      match find (matchesIP addresses) items with
      | Some node => ret (Some node, None)
      | None =>
          match find (matchesHostname addresses) items with
          | Some node => ret (Some node, None)
          | None =>
              match find (matchesLabel addresses) items with
              | Some node => ret (Some node, None)
              | None =>
                  ret (None,
                       Some (ErrorString ("failed to find k8s node for given addresses: "
                                            ++ formatStrings addresses)%string))
              end
          end
      end
  end.

End NodeStatus.

Record Service := {
  svc_Name : string;
  svc_Namespace : string
}.

Section Services.

(** [Get] on services of the Cluster API, taken as it comes: the object
    store of this development keeps no services. *)
Variable services_Get : string -> string -> M (Service + string).

Definition GetService (svcName svcNS : string) : M (option Service * option error) :=
  err <- initK8sClient ;;
  match err with
  | Some e => ret (None, Some e)
  | None =>
      if String.eqb svcName "" then
        ret (None, Some (ErrorString "cannot return service obj without service name"))
      else
        r <- services_Get svcNS svcName ;;
        match r with
        | inr e => ret (None, Some (ErrorString e))
        | inl svc => ret (Some svc, None)
        end
  end.

Definition ValidateDeletedService (svcName svcNS : string) : M (option error) :=
  err <- initK8sClient ;;
  match err with
  | Some e => ret (Some e)
  | None =>
      if String.eqb svcName "" then
        ret (Some (ErrorString "cannot validate service without service name"))
      else
        r <- services_Get svcNS svcName ;;
        match r with
        | inr e =>
            if matchNotFound e then ret None
            else ret (Some (ErrorString e))
        | inl _ => ret None
        end
  end.

End Services.

(* ================================================================== *)
(** * Predicates of the statements, and sample objects *)
(* ================================================================== *)

Definition noInitRunning (pod : Pod) : Prop :=
  forall c, In c (pod_InitContainerStatuses pod) -> Running (cs_State c) = None.

(** The pod carries an owner reference with the given UID. *)
Definition ownedBy (uid : UID) (pod : Pod) : Prop :=
  exists o, In o (pod_OwnerReferences pod) /\ or_UID o = uid.

(** A cluster that stays as it is while the caller sleeps. *)
Definition idle (d : Duration) (w : World) : World := w.

Definition unmanagedOwner : OwnerReference :=
  {| or_Name := "gc-owner"; or_UID := "uid-1"; or_Controller := None |}.

Definition ownedPod : Pod :=
  {| pod_Name := "web-0"; pod_Namespace := "default"; pod_UID := "pod-uid-0";
     pod_OwnerReferences := [unmanagedOwner];
     pod_InitContainerStatuses := []; pod_ContainerStatuses := [];
     pod_HostIP := "10.0.0.1" |}.

Definition running : ContainerState := {| Running := Some {| StartedAt := 0 |} |}.
Definition waiting : ContainerState := {| Running := None |}.

Definition container (name : string) (state : ContainerState) (ready : bool) : ContainerStatus :=
  {| cs_Name := name; cs_State := state; cs_Ready := ready |}.

Definition ownerRef (name : string) (uid : UID) : OwnerReference :=
  {| or_Name := name; or_UID := uid; or_Controller := Some true |}.

(** A pod of the default namespace with one regular container. *)
Definition mkPod (name : string) (uid : UID) (owners : list OwnerReference)
           (state : ContainerState) (ready : bool) : Pod :=
  {| pod_Name := name; pod_Namespace := "default"; pod_UID := uid;
     pod_OwnerReferences := owners;
     pod_InitContainerStatuses := [];
     pod_ContainerStatuses := [container "app" state ready];
     pod_HostIP := "10.0.0.1" |}.

Definition initializingPod : Pod :=
  {| pod_Name := "web-1"; pod_Namespace := "default"; pod_UID := "pod-uid-1";
     pod_OwnerReferences := [];
     pod_InitContainerStatuses := [container "init" running false];
     pod_ContainerStatuses := [container "app" waiting false];
     pod_HostIP := "10.0.0.1" |}.

Definition emptyCluster : Cluster :=
  {| nodes := []; pods := []; replicaSets := []; deployments := []; statefulSets := [];
     persistentVolumeClaims := []; jobs := [] |}.

Definition connected (c : Cluster) (script : list (option string)) : World :=
  {| client := true; cluster := c; faults := script |}.

Definition replicaSetOwner : OwnerReference := ownerRef "web-5d4f" "rs-uid".

Definition webPod0 : Pod := mkPod "web-5d4f-a" "pod-a" [replicaSetOwner] running true.
Definition webPod1 : Pod := mkPod "web-5d4f-b" "pod-b" [replicaSetOwner] waiting false.
Definition webPod2 : Pod := mkPod "web-5d4f-c" "pod-c" [replicaSetOwner] waiting false.
Definition strayPod : Pod := mkPod "stray" "pod-s" [] running true.

(** An operation that comes back with a value from every world. *)
Definition returns {A} (m : M A) : Prop :=
  forall w, exists a w', m w = (Return a, w').

(** Whether the node of that name is cordoned, if the node exists. *)
Definition cordonState (nodeName : string) (w : World) : option bool :=
  match find (fun n => String.eqb (node_Name n) nodeName) (nodes (cluster w)) with
  | Some n => Some (node_Unschedulable n)
  | None => None
  end.

(** The attempt made from [w] ends the loop: whatever the deadline and
    however many attempts came before, the executor returns [err] and
    leaves the world [w1] of that attempt. *)
Definition stopsWith {W} (sleep : Duration -> W -> W) (t : @Task W) (interval : Duration)
           (w : W) (err : option error) (w1 : W) : Prop :=
  forall fuel timeout elapsed n,
  exists out,
    retry_loop sleep fuel t timeout interval elapsed n w = (Return (out, err, S n), w1).

(** The attempt made from [w] is transient: the executor sleeps, and
    then polls again from the world it wakes up in, unless the deadline
    has passed, in which case it returns [err], the error of this
    attempt. *)
Definition retriesWith {W} (sleep : Duration -> W -> W) (t : @Task W) (interval : Duration)
           (w : W) (err : option error) (w1 : W) : Prop :=
  forall fuel timeout elapsed n,
    (elapsed + Z.max 0 interval < timeout ->
     retry_loop sleep (S fuel) t timeout interval elapsed n w
     = retry_loop sleep fuel t timeout interval (elapsed + Z.max 0 interval) (S n)
                  (sleep interval w1)) /\
    (timeout <= elapsed + Z.max 0 interval ->
     exists out,
       retry_loop sleep fuel t timeout interval elapsed n w
       = (Return (out, err, S n), sleep interval w1)).

(** The worlds the executor polls from when it is started in [w]: [w]
    itself, and the world it wakes up in after each transient
    attempt. *)
Inductive polled {W} (sleep : Duration -> W -> W) (t : @Task W) (interval : Duration)
          (w : W) : W -> Prop :=
| polled_first : polled sleep t interval w w
| polled_again w0 out err w1 :
    polled sleep t interval w w0 ->
    t w0 = (Return (out, true, err), w1) ->
    polled sleep t interval w (sleep interval w1).

(** A task that counts its invocations and always asks to be retried. *)
Definition countingTask : @Task nat :=
  fun n => (Return (INil, true, Some ErrPodsNotFound), S n).

Definition cordonedNode : Node :=
  {| node_Name := "node-1"; node_Labels := Some (<["role" := "worker"]> ∅);
     node_Unschedulable := true |}.

Definition schedulableNode : Node :=
  {| node_Name := "node-1"; node_Labels := Some (<["role" := "worker"]> ∅);
     node_Unschedulable := false |}.

Definition unlabelledNode : Node :=
  {| node_Name := "node-1"; node_Labels := None; node_Unschedulable := false |}.

(** A node with one pod on it; the third request (deleting the pod) is
    refused. *)
Definition drainWorld (n : Node) : World :=
  connected (set_nodes [n] (set_pods [webPod0] emptyCluster))
            [None; None; Some "pods is forbidden"].

(** A cluster without pods whose API refuses the first two requests. *)
(** A schedulable node with one pod on it; deleting the pod is refused,
    and so is every request after that. *)
Definition stuckWorld : World :=
  connected (set_nodes [schedulableNode] (set_pods [webPod0] emptyCluster))
            ([None; None; Some "pods is forbidden"]
               ++ repeat (Some "etcdserver: request timed out") 30).


Definition mkJob (active succeeded failed : Z) : Job :=
  {| job_Name := "backup"; job_Namespace := "default";
     job_Active := active; job_Succeeded := succeeded; job_Failed := failed |}.

Definition jobWorld (j : Job) : World :=
  connected {| nodes := []; pods := []; replicaSets := []; deployments := [];
               statefulSets := []; persistentVolumeClaims := []; jobs := [j] |} [].

Definition dbSet : StatefulSet :=
  {| ss_Name := "db"; ss_Namespace := "default"; ss_UID := "ss-uid";
     ss_Replicas := Some 3; ss_Volumes := [];
     ss_StatusReplicas := 3; ss_StatusReadyReplicas := 1 |}.

Definition dbPod : Pod := mkPod "db-0" "pod-db-0" [ownerRef "db" "ss-uid"] running true.

(** The stateful set is gone from the store, one of its pods is not. *)
Definition orphanWorld : World :=
  connected (set_pods [dbPod] emptyCluster) [].

Definition idleDeployment : Deployment :=
  {| dep_Name := "web"; dep_Namespace := "default"; dep_UID := "dep-uid";
     dep_Replicas := Some 3; dep_Volumes := [];
     dep_AvailableReplicas := 0; dep_ReadyReplicas := 0 |}.

(** The deployment is in the store, and no replica set names it. *)
Definition lingeringWorld : World :=
  connected {| nodes := []; pods := []; replicaSets := []; deployments := [idleDeployment];
               statefulSets := []; persistentVolumeClaims := []; jobs := [] |} [].

(** The fault script under which every read is answered and every
    update is refused with the next message of [refusals]. *)
Definition refuseUpdates (refusals : list string) : list (option string) :=
  flat_map (fun msg => [None; Some msg]) refusals.

Definition conflicts : list string :=
  ["conflict 1"; "conflict 2"; "conflict 3"; "conflict 4"; "conflict 5"].

(** The claim of that name in the store, as a fetch finds it. *)
Definition findClaim (namespace name : string) (c : Cluster) : option PersistentVolumeClaim :=
  find (fun p => String.eqb (pvc_Namespace p) namespace && String.eqb (pvc_Name p) name)
       (persistentVolumeClaims c).

Definition mounts (vol : Volume) : bool :=
  match vol_PersistentVolumeClaim vol with Some _ => true | None => false end.

(** [vol] mounts the persistent volume claim [claim] of the store. *)
Definition mountedClaim (c : Cluster) (namespace : string) (vol : Volume)
           (claim : PersistentVolumeClaim) : Prop :=
  exists source,
    vol_PersistentVolumeClaim vol = Some source /\
    findClaim namespace (ClaimName source) c = Some claim.

(** Every claim the volumes mount is in the store. *)
Definition claimsInStore (c : Cluster) (namespace : string) (volumes : list Volume) : Prop :=
  forall vol source,
    In vol volumes -> vol_PersistentVolumeClaim vol = Some source ->
    exists claim, findClaim namespace (ClaimName source) c = Some claim.

(** None of the claim's access modes is ReadOnlyMany or ReadWriteMany. *)
Definition unshared (claim : PersistentVolumeClaim) : Prop :=
  forall mode, In mode (pvc_AccessModes claim) ->
               mode <> ReadOnlyMany /\ mode <> ReadWriteMany.

Definition noneShared (c : Cluster) (namespace : string) (volumes : list Volume) : Prop :=
  forall vol claim, In vol volumes -> mountedClaim c namespace vol claim -> unshared claim.

Definition someShared (c : Cluster) (namespace : string) (volumes : list Volume) : Prop :=
  exists vol claim,
    In vol volumes /\ mountedClaim c namespace vol claim /\ ~ unshared claim.

(** The next [k] requests are not faulted. *)
Definition quiet (k : nat) (w : World) : Prop :=
  Forall (fun f => f = None) (firstn k (faults w)).

Definition pvcCount (volumes : list Volume) : nat := length (List.filter mounts volumes).

(** The number of pods that [IsPodReady] accepts. *)
Definition readyPods (pods : list Pod) : Z := Z.of_nat (length (List.filter IsPodReady pods)).

(** What the readiness half of the poll of [ValidateDeployment] needs
    to succeed with [required] replicas on the pods it was given. *)
Definition deploymentConverged (dep : Deployment) (required : Z) (pods : list Pod)
           (err : option error) : Prop :=
  err = None /\ pods <> [] /\
  required <= dep_AvailableReplicas dep /\ required <= dep_ReadyReplicas dep /\
  required <= readyPods pods.

Definition dataClaim : PersistentVolumeClaim :=
  {| pvc_Name := "data"; pvc_Namespace := "default"; pvc_AccessModes := [ReadWriteOnce] |}.

Definition sharedClaim : PersistentVolumeClaim :=
  {| pvc_Name := "shared"; pvc_Namespace := "default"; pvc_AccessModes := [ReadWriteMany] |}.

Definition claimVolume (name : string) : Volume :=
  {| vol_Name := name; vol_PersistentVolumeClaim := Some {| ClaimName := name |} |}.

(** A deployment declaring three replicas. *)
Definition webDeployment (volumes : list Volume) (available ready : Z) : Deployment :=
  {| dep_Name := "web"; dep_Namespace := "default"; dep_UID := "dep-uid";
     dep_Replicas := Some 3; dep_Volumes := volumes;
     dep_AvailableReplicas := available; dep_ReadyReplicas := ready |}.

Definition webReplicaSet : ReplicaSet :=
  {| rs_Name := "web-5d4f"; rs_Namespace := "default"; rs_UID := "rs-uid";
     rs_OwnerReferences := [ownerRef "web" "dep-uid"] |}.

Definition webWorld (d : Deployment) (podList : list Pod) : World :=
  connected {| nodes := []; pods := podList; replicaSets := [webReplicaSet];
               deployments := [d]; statefulSets := [];
               persistentVolumeClaims := [dataClaim; sharedClaim]; jobs := [] |} [].

Definition webPod1Ready : Pod := mkPod "web-5d4f-b" "pod-b" [replicaSetOwner] running true.
Definition webPod2Ready : Pod := mkPod "web-5d4f-c" "pod-c" [replicaSetOwner] running true.

(** A stateful set declaring three replicas on a ReadWriteOnce claim,
    of which one is ready. *)
Definition dataSet : StatefulSet :=
  {| ss_Name := "db"; ss_Namespace := "default"; ss_UID := "ss-uid";
     ss_Replicas := Some 3; ss_Volumes := [claimVolume "data"];
     ss_StatusReplicas := 3; ss_StatusReadyReplicas := 1 |}.

Definition dbPod1 : Pod := mkPod "db-1" "pod-db-1" [ownerRef "db" "ss-uid"] waiting false.
Definition dbPod2 : Pod := mkPod "db-2" "pod-db-2" [ownerRef "db" "ss-uid"] waiting false.

Definition dataSetWorld : World :=
  connected {| nodes := []; pods := [dbPod; dbPod1; dbPod2]; replicaSets := [];
               deployments := []; statefulSets := [dataSet];
               persistentVolumeClaims := [dataClaim]; jobs := [] |} [].

(** A poll body none of whose failures ends the polling: an error
    always comes with the retry flag. *)
Definition neverFatal (t : M (iface * bool * option error)) : Prop :=
  forall w out retry e w',
    t w = (Return (out, retry, Some e), w') -> retry = true.

(** The replica set has an owner reference named like the deployment. *)
Definition namesOwner (deployment : Deployment) (rSet : ReplicaSet) : bool :=
  existsb (fun owner => String.eqb (or_Name owner) (dep_Name deployment))
          (rs_OwnerReferences rSet).

(** What [IsNodeReady] wants of a condition. *)
Definition healthy (c : NodeCondition) : Prop :=
  (cond_Type c = NodeReady -> cond_Status c = ConditionTrue) /\
  (In (cond_Type c)
      [NodeOutOfDisk; NodeMemoryPressure; NodeDiskPressure; NodeNetworkUnavailable] ->
   cond_Status c = ConditionFalse).

(** The node of that name as a read finds it. *)
Definition findNode (name : string) (w : World) : option Node :=
  find (fun n => String.eqb (node_Name n) name) (nodes (cluster w)).

(** The store with the node written back over the nodes of its name,
    as an accepted update leaves it. *)
Definition storeNode (n : Node) (c : Cluster) : Cluster :=
  set_nodes (map (fun m => if String.eqb (node_Name m) (node_Name n) then n else m)
                 (nodes c)) c.

(** The world after [k] requests that went through and left the store
    [c]. *)
Definition after (k : nat) (c : Cluster) (w : World) : World :=
  {| client := client w; cluster := c; faults := Nat.iter k (@tl _) (faults w) |}.

(** The script under which the first [k] requests go through and the
    next one is refused with [msg]. *)
Definition refuseAfter (k : nat) (msg : string) : list (option string) :=
  repeat None k ++ [Some msg].

Definition mkCondition (type status : string) : NodeCondition :=
  {| cond_Type := type; cond_Status := status; cond_Message := "";
     cond_Reason := "KubeletStatus" |}.

Definition mkAddress (type address : string) : NodeAddress :=
  {| addr_Type := type; addr_Address := address |}.

Definition namedNode (name hostname : string) : Node :=
  {| node_Name := name; node_Labels := Some (<[hostnameKey := hostname]> ∅);
     node_Unschedulable := false |}.

(** Addresses by node name: node-a is known by its hostname, node-b by
    an internal IP. *)
Definition sampleAddresses (n : Node) : list NodeAddress :=
  if String.eqb (node_Name n) "node-a" then [mkAddress NodeHostName "10.0.0.2"]
  else if String.eqb (node_Name n) "node-b" then [mkAddress NodeInternalIP "10.0.0.2"]
  else [].

Definition sampleConditions (n : Node) : list NodeCondition :=
  [mkCondition NodeReady ConditionTrue; mkCondition NodeDiskPressure ConditionFalse].

Definition twoNodes : World :=
  connected (set_nodes [namedNode "node-a" "host-a"; namedNode "node-b" "host-b"]
                       emptyCluster) [].

Definition managedPod : Pod :=
  mkPod "web-0" "pod-0"
        [{| or_Name := "gc"; or_UID := "u0"; or_Controller := Some false |};
         {| or_Name := "rs"; or_UID := "u1"; or_Controller := Some true |};
         unmanagedOwner]
        running true.

(** Reading a key of a Go map that may be nil. *)
Definition labelOf (m : option (gmap string string)) (k : string) : option string :=
  match m with
  | Some labels => labels !! k
  | None => None
  end.

(** Between [w] and [w'] each of the pods, in turn, was waited for and
    seen gone: the polls of [WaitForPodDeletion] for it, started where
    the wait for the pod before it ended, came to a listing of its
    namespace without a pod of its UID, and the last of these listings
    left [w']. *)
Fixpoint seenGone (sleep : Duration -> World -> World) (pods : list Pod) (w w' : World)
  : Prop :=
  match pods with
  | [] => w' = w
  | p :: rest =>
      exists w0 items w1,
        polled sleep (WaitForPodDeletion_t (pod_UID p) (pod_Namespace p)) (5 * Second) w w0 /\
        GetPods (pod_Namespace p) w0 = (Return (inl items), w1) /\
        (forall q, In q items -> pod_UID q <> pod_UID p) /\
        seenGone sleep rest w1 w'
  end.

(** A stateful set of one replica that has converged, and its pod. *)
Definition readySet : StatefulSet :=
  {| ss_Name := "db"; ss_Namespace := "default"; ss_UID := "ss-uid";
     ss_Replicas := Some 1; ss_Volumes := [];
     ss_StatusReplicas := 1; ss_StatusReadyReplicas := 1 |}.

Definition readySetWorld : World :=
  connected {| nodes := []; pods := [dbPod]; replicaSets := [];
               deployments := []; statefulSets := [readySet];
               persistentVolumeClaims := []; jobs := [] |} [].

(** A service API that finds every service asked for. *)
Definition everyService (namespace name : string) : M (Service + string) :=
  request (fun c => (inl {| svc_Name := name; svc_Namespace := namespace |}, c)).

(* ================================================================== *)
(** * Properties of the pod queries *)
(* ================================================================== *)

Lemma existsb_false_iff {A} (f : A -> bool) (l : list A) :
  existsb f l = false <-> (forall x, In x l -> f x = false).
Proof.
  induction l as [|a l IH]; simpl.
  - split; [intros _ x [] | reflexivity].
  - rewrite orb_false_iff, IH. split.
    + intros [Ha Hl] x [<-|Hx]; auto.
    + intros H. split; [apply H; now left | intros x Hx; apply H; now right].
Qed.

Lemma isRunning_true (c : ContainerStatus) :
  isRunning c = true <-> Running (cs_State c) <> None.
Proof.
  unfold isRunning. destruct (Running (cs_State c)); split; congruence.
Qed.

Lemma isRunning_false (c : ContainerStatus) :
  isRunning c = false <-> Running (cs_State c) = None.
Proof.
  unfold isRunning. destruct (Running (cs_State c)); split; congruence.
Qed.

Lemma init_guard (pod : Pod) :
  existsb isRunning (pod_InitContainerStatuses pod) = false <-> noInitRunning pod.
Proof.
  rewrite existsb_false_iff. unfold noInitRunning.
  split; intros H c Hc; apply isRunning_false; auto.
Qed.

Lemma IsPodRunning_true (pod : Pod) :
  IsPodRunning pod = true <->
  noInitRunning pod /\
  (forall c, In c (pod_ContainerStatuses pod) -> Running (cs_State c) <> None).
Proof.
  unfold IsPodRunning. rewrite <- init_guard.
  destruct (existsb isRunning (pod_InitContainerStatuses pod)).
  - split; [discriminate | intros [H _]; discriminate].
  - destruct (existsb _ (pod_ContainerStatuses pod)) eqn:E.
    + split; [discriminate|]. intros [_ H]. exfalso.
      apply existsb_exists in E as (c & Hc & Hn).
      apply negb_true_iff, isRunning_false in Hn. exact (H c Hc Hn).
    + split; [|reflexivity]. intros _. split; [reflexivity|].
      intros c Hc. rewrite existsb_false_iff in E.
      apply isRunning_true. specialize (E c Hc). now apply negb_false_iff in E.
Qed.

Lemma IsPodReady_true (pod : Pod) :
  IsPodReady pod = true <->
  noInitRunning pod /\
  (forall c, In c (pod_ContainerStatuses pod) ->
             Running (cs_State c) <> None /\ cs_Ready c = true).
Proof.
  unfold IsPodReady. rewrite <- init_guard.
  destruct (existsb isRunning (pod_InitContainerStatuses pod)).
  - split; [discriminate | intros [H _]; discriminate].
  - destruct (existsb _ (pod_ContainerStatuses pod)) eqn:E.
    + split; [discriminate|]. intros [_ H]. exfalso.
      apply existsb_exists in E as (c & Hc & Hn).
      destruct (H c Hc) as [Hr Hy]. apply isRunning_true in Hr.
      rewrite Hr, Hy in Hn. discriminate.
    + split; [|reflexivity]. intros _. split; [reflexivity|].
      intros c Hc. rewrite existsb_false_iff in E. specialize (E c Hc).
      rewrite <- isRunning_true.
      destruct (isRunning c), (cs_Ready c); simpl in E; split; congruence.
Qed.

(** C7.  [IsPodRunning] is false when an init container is running,
    false when a regular container is not running, and true otherwise;
    [IsPodReady] has the same init-container guard and is true exactly
    when, besides, every regular container is running and has its
    readiness flag set. *)
Theorem pod_running_ready_spec (pod : Pod) :
  ((exists c, In c (pod_InitContainerStatuses pod) /\ Running (cs_State c) <> None) ->
     IsPodRunning pod = false /\ IsPodReady pod = false) /\
  ((exists c, In c (pod_ContainerStatuses pod) /\ Running (cs_State c) = None) ->
     IsPodRunning pod = false /\ IsPodReady pod = false) /\
  (IsPodRunning pod = true <->
     noInitRunning pod /\
     (forall c, In c (pod_ContainerStatuses pod) -> Running (cs_State c) <> None)) /\
  (IsPodReady pod = true <->
     noInitRunning pod /\
     (forall c, In c (pod_ContainerStatuses pod) ->
                Running (cs_State c) <> None /\ cs_Ready c = true)).
Proof.
  split; [|split; [|split]].
  - intros (c & Hc & Hr). split; apply not_true_is_false; intros H.
    + apply IsPodRunning_true in H as [Hi _]. exact (Hr (Hi c Hc)).
    + apply IsPodReady_true in H as [Hi _]. exact (Hr (Hi c Hc)).
  - intros (c & Hc & Hr). split; apply not_true_is_false; intros H.
    + apply IsPodRunning_true in H as [_ Hk]. exact (Hk c Hc Hr).
    + apply IsPodReady_true in H as [_ Hk]. destruct (Hk c Hc) as [Hn _]. exact (Hn Hr).
  - apply IsPodRunning_true.
  - apply IsPodReady_true.
Qed.

Lemma anyController_set (owners : list OwnerReference) :
  (forall o, In o owners -> or_Controller o <> None) ->
  anyController owners =
  Return (existsb (fun o => match or_Controller o with Some true => true | _ => false end)
                  owners).
Proof.
  induction owners as [|o owners IH]; intros H; simpl; [reflexivity|].
  destruct (or_Controller o) as [[|]|] eqn:E.
  - reflexivity.
  - apply IH. intros o' Ho'. apply H. now right.
  - exfalso. apply (H o); [now left | exact E].
Qed.

(** Where every controller flag is set, [IsPodBeingManaged] answers
    whether one of them is true. *)
Lemma IsPodBeingManaged_set (pod : Pod) :
  (forall o, In o (pod_OwnerReferences pod) -> or_Controller o <> None) ->
  IsPodBeingManaged pod =
  Return (existsb (fun o => match or_Controller o with Some true => true | _ => false end)
                  (pod_OwnerReferences pod)).
Proof.
  intros H. unfold IsPodBeingManaged.
  destruct (pod_OwnerReferences pod) as [|o owners] eqn:E; simpl (length _ =? 0)%nat; cbv iota.
  - reflexivity.
  - now apply anyController_set.
Qed.

(** C9.  On a pod whose owner reference leaves the optional controller
    flag unset, [IsPodBeingManaged] dereferences the nil flag and
    panics: it is not defined on every pod. *)
Theorem IsPodBeingManaged_unset_controller_panics :
  IsPodBeingManaged ownedPod = Panic nilDeref /\
  (forall b, IsPodBeingManaged ownedPod <> Return b).
Proof.
  split; [reflexivity | intros b; discriminate].
Qed.

Lemma pod_running_ready_spec_witness :
  IsPodRunning initializingPod = false /\ IsPodReady initializingPod = false.
Proof.
  apply (proj1 (pod_running_ready_spec initializingPod)).
  exists (container "init" running false). split; [now left | discriminate].
Defined.

(* ================================================================== *)
(** * Owner resolution *)
(* ================================================================== *)

Lemma fold_append_owner (uid : UID) (pod : Pod) (owners : list OwnerReference)
      (acc : list Pod) :
  fold_left (fun result owner =>
               if String.eqb (or_UID owner) uid then result ++ [pod] else result)
            owners acc
  = acc ++ flat_map (fun owner => if String.eqb (or_UID owner) uid then [pod] else []) owners.
Proof.
  revert acc. induction owners as [|o owners IH]; intros acc; simpl.
  - now rewrite app_nil_r.
  - rewrite IH. destruct (String.eqb (or_UID o) uid); simpl.
    + now rewrite <- app_assoc.
    + reflexivity.
Qed.

(** The result holds each listed pod once per owner reference that
    carries the UID, in listing order. *)
Lemma appendOwned_flat_map (uid : UID) (items : list Pod) :
  appendOwned uid items
  = flat_map (fun pod =>
                flat_map (fun owner => if String.eqb (or_UID owner) uid then [pod] else [])
                         (pod_OwnerReferences pod)) items.
Proof.
  unfold appendOwned.
  enough (G : forall acc,
             fold_left
               (fun result pod =>
                  fold_left (fun result owner =>
                               if String.eqb (or_UID owner) uid then result ++ [pod] else result)
                            (pod_OwnerReferences pod) result) items acc
             = acc ++ flat_map (fun pod =>
                         flat_map (fun owner =>
                                     if String.eqb (or_UID owner) uid then [pod] else [])
                                  (pod_OwnerReferences pod)) items)
    by apply (G []).
  induction items as [|p items IH]; intros acc; simpl.
  - now rewrite app_nil_r.
  - rewrite IH, fold_append_owner. now rewrite app_assoc.
Qed.

Lemma In_appendOwned (uid : UID) (items : list Pod) (pod : Pod) :
  In pod (appendOwned uid items) <-> In pod items /\ ownedBy uid pod.
Proof.
  rewrite appendOwned_flat_map, in_flat_map. unfold ownedBy. split.
  - intros (p & Hp & Hin). apply in_flat_map in Hin as (o & Ho & Hin).
    destruct (String.eqb (or_UID o) uid) eqn:E; [|destruct Hin].
    destruct Hin as [<-|[]]. apply String.eqb_eq in E. eauto.
  - intros (Hp & o & Ho & Hu). exists pod. split; [exact Hp|].
    apply in_flat_map. exists o. split; [exact Ho|].
    apply String.eqb_eq in Hu. rewrite Hu. now left.
Qed.

(** [GetPodsByOwner] never hands back a nil pod list with a nil error. *)
Lemma GetPodsByOwner_not_nil_nil (ownerUID : UID) (namespace : string) (w : World)
      (result : list Pod) (w' : World) :
  GetPodsByOwner ownerUID namespace w = (Return (result, None), w') -> result <> [].
Proof.
  unfold GetPodsByOwner, bind.
  destruct (GetPods namespace w) as [[[items|e]| |] w1]; try discriminate.
  destruct (appendOwned ownerUID items) as [|p l] eqn:E; simpl; unfold ret.
  - discriminate.
  - intros [= <- _]. discriminate.
Qed.

(** C8.  When listing the namespace's pods succeeds, [GetPodsByOwner]
    returns [ErrPodsNotFound] if no listed pod carries an owner
    reference with the UID, and otherwise the pods that do, with a nil
    error; whatever the listing does, it never returns a nil pod list
    together with a nil error. *)
Theorem GetPodsByOwner_spec (ownerUID : UID) (namespace : string) (w : World) :
  (forall items w',
      GetPods namespace w = (Return (inl items), w') ->
      ((forall pod, In pod items -> ~ ownedBy ownerUID pod) ->
         GetPodsByOwner ownerUID namespace w = (Return ([], Some ErrPodsNotFound), w')) /\
      ((exists pod, In pod items /\ ownedBy ownerUID pod) ->
         exists result,
           GetPodsByOwner ownerUID namespace w = (Return (result, None), w') /\
           (forall pod, In pod result <-> In pod items /\ ownedBy ownerUID pod))) /\
  (forall result w', GetPodsByOwner ownerUID namespace w = (Return (result, None), w') ->
                     result <> []).
Proof.
  split.
  - intros items w' HL. unfold GetPodsByOwner, bind. rewrite HL. split.
    + intros Hnone.
      destruct (appendOwned ownerUID items) as [|p l] eqn:E; [reflexivity|].
      exfalso. apply (Hnone p); apply (In_appendOwned ownerUID items p);
        rewrite E; now left.
    + intros (pod & Hin & Hown).
      destruct (appendOwned ownerUID items) as [|p l] eqn:E.
      * exfalso. assert (H : In pod (appendOwned ownerUID items))
          by now apply In_appendOwned.
        rewrite E in H. destruct H.
      * exists (p :: l). split; [reflexivity|].
        intros q. rewrite <- E. apply In_appendOwned.
  - intros result w'. apply GetPodsByOwner_not_nil_nil.
Qed.

Lemma GetPodsByOwner_spec_witness :
  exists result,
    GetPodsByOwner "rs-uid" "default"
                   (connected (set_pods [strayPod; webPod0] emptyCluster) [])
    = (Return (result, None), connected (set_pods [strayPod; webPod0] emptyCluster) []) /\
    (forall pod, In pod result <-> In pod [strayPod; webPod0] /\ ownedBy "rs-uid" pod).
Proof.
  apply (proj1 (GetPodsByOwner_spec "rs-uid" "default"
                  (connected (set_pods [strayPod; webPod0] emptyCluster) []))
               [strayPod; webPod0]
               (connected (set_pods [strayPod; webPod0] emptyCluster) [])
               eq_refl).
  exists webPod0. split.
  - right. now left.
  - exists replicaSetOwner. split; [now left | reflexivity].
Defined.

(* ================================================================== *)
(** * Properties of the bounded retry executor *)
(* ================================================================== *)

Section ExecutorFacts.

Context {W : Type}.
Variable sleep : Duration -> W -> W.

Implicit Types (t : @Task W) (w : W).

(** A result that is not transient stops the loop at once. *)
Lemma retry_loop_stop fuel t timeout interval elapsed n w out err w1 :
  t w = (Return (out, false, err), w1) ->
  retry_loop sleep fuel t timeout interval elapsed n w = (Return (out, err, S n), w1).
Proof.
  intros H. destruct fuel; simpl; rewrite H; reflexivity.
Qed.

(** A transient result past the deadline returns the last error. *)
Lemma retry_loop_deadline fuel t timeout interval elapsed n w out err w1 :
  t w = (Return (out, true, err), w1) ->
  timeout <= elapsed + Z.max 0 interval ->
  retry_loop sleep fuel t timeout interval elapsed n w
  = (Return (out, err, S n), sleep interval w1).
Proof.
  intros H Hd. apply Z.leb_le in Hd.
  destruct fuel; simpl; rewrite H; simpl; rewrite Hd; reflexivity.
Qed.

(** A transient result before the deadline is followed by a sleep and
    another attempt. *)
Lemma retry_loop_again fuel t timeout interval elapsed n w out err w1 :
  t w = (Return (out, true, err), w1) ->
  elapsed + Z.max 0 interval < timeout ->
  retry_loop sleep (S fuel) t timeout interval elapsed n w
  = retry_loop sleep fuel t timeout interval (elapsed + Z.max 0 interval) (S n)
               (sleep interval w1).
Proof.
  intros H Hd. apply Z.leb_gt in Hd.
  simpl. rewrite H. simpl. rewrite Hd. reflexivity.
Qed.

Lemma stopsWith_intro t interval w out err w1 :
  t w = (Return (out, false, err), w1) -> stopsWith sleep t interval w err w1.
Proof.
  intros H fuel timeout elapsed n. exists out. now apply retry_loop_stop.
Qed.

Lemma retriesWith_intro t interval w out err w1 :
  t w = (Return (out, true, err), w1) -> retriesWith sleep t interval w err w1.
Proof.
  intros H fuel timeout elapsed n. split; intros Hd.
  - now apply retry_loop_again with (out := out) (err := err).
  - exists out. now apply retry_loop_deadline.
Qed.

(** What the loop returns is what its last attempt returned. *)
Lemma retry_loop_last fuel t timeout interval :
  forall elapsed n w out err m w',
    retry_loop sleep fuel t timeout interval elapsed n w = (Return (out, err, m), w') ->
    exists w0 w1 retry,
      t w0 = (Return (out, retry, err), w1) /\
      w' = (if retry then sleep interval w1 else w1).
Proof.
  induction fuel as [|fuel IH]; intros elapsed n w out err m w'; simpl;
    destruct (t w) as [[[[o r] e]| |] w1] eqn:E; try discriminate;
    destruct r; simpl.
  - destruct (timeout <=? elapsed + Z.max 0 interval)%Z; [|discriminate].
    intros [= <- <- _ <-]. exists w, w1, true. now split.
  - intros [= <- <- _ <-]. exists w, w1, false. now split.
  - destruct (timeout <=? elapsed + Z.max 0 interval)%Z.
    + intros [= <- <- _ <-]. exists w, w1, true. now split.
    + apply IH.
  - intros [= <- <- _ <-]. exists w, w1, false. now split.
Qed.

(** The last attempt is made from a world the executor polls from. *)
Lemma retry_loop_reached fuel t timeout interval start :
  forall elapsed n w out err m w',
    polled sleep t interval start w ->
    retry_loop sleep fuel t timeout interval elapsed n w = (Return (out, err, m), w') ->
    exists w0 w1 retry,
      polled sleep t interval start w0 /\
      t w0 = (Return (out, retry, err), w1) /\
      w' = (if retry then sleep interval w1 else w1).
Proof.
  induction fuel as [|fuel IH]; intros elapsed n w out err m w' Hp; simpl;
    destruct (t w) as [[[[o r] e]| |] w1] eqn:E; try discriminate;
    destruct r; simpl.
  - destruct (timeout <=? elapsed + Z.max 0 interval)%Z; [|discriminate].
    intros [= <- <- _ <-]. exists w, w1, true. now split.
  - intros [= <- <- _ <-]. exists w, w1, false. now split.
  - destruct (timeout <=? elapsed + Z.max 0 interval)%Z.
    + intros [= <- <- _ <-]. exists w, w1, true. now split.
    + apply IH. eapply polled_again; eauto.
  - intros [= <- <- _ <-]. exists w, w1, false. now split.
Qed.

(** With a positive interval the budget of [DoRetryWithTimeout] is
    never used up: a task that always returns makes the loop return. *)
Lemma retry_loop_returns fuel t timeout interval :
  0 < interval ->
  (forall w, exists r w1, t w = (Return r, w1)) ->
  forall elapsed n w,
    timeout - elapsed <= (Z.of_nat fuel + 1) * interval ->
    exists out err m w', retry_loop sleep fuel t timeout interval elapsed n w
                         = (Return (out, err, m), w').
Proof.
  intros Hi Ht. induction fuel as [|fuel IH]; intros elapsed n w Hb; simpl;
    destruct (Ht w) as ([[o r] e] & w1 & E); rewrite E; destruct r; simpl; eauto.
  - replace (Z.max 0 interval) with interval by lia.
    destruct (timeout <=? elapsed + interval)%Z eqn:D; eauto.
    apply Z.leb_gt in D. lia.
  - replace (Z.max 0 interval) with interval by lia.
    destruct (timeout <=? elapsed + interval)%Z eqn:D; eauto.
    apply IH. lia.
Qed.

Lemma retryBudget_enough timeout interval :
  0 < interval ->
  timeout - 0 <= (Z.of_nat (retryBudget timeout interval) + 1) * interval.
Proof.
  intros Hi. unfold retryBudget.
  destruct (Z.le_gt_cases 0 timeout) as [Hp|Hn].
  - rewrite Z2Nat.id by (apply Z.div_pos; lia).
    pose proof (Z.mul_succ_div_gt timeout interval Hi). lia.
  - assert (timeout / interval < 0) by (apply Z.div_lt_upper_bound; lia).
    destruct (timeout / interval) as [|q|q]; simpl; lia.
Qed.

Lemma DoRetryTrace_returns t timeout interval w :
  0 < interval ->
  (forall w, exists r w1, t w = (Return r, w1)) ->
  exists out err m w', DoRetryTrace sleep t timeout interval w = (Return (out, err, m), w').
Proof.
  intros Hi Ht. apply retry_loop_returns; auto using retryBudget_enough.
Qed.

(** C6.  With a timeout that is zero or negative the executor invokes
    the task exactly once: the result and the error are those of that
    one invocation, and the only thing that follows it is the sleep
    after a transient result. *)
Theorem DoRetry_nonpositive_timeout_once t timeout interval w out retry err w1 :
  timeout <= 0 ->
  t w = (Return (out, retry, err), w1) ->
  DoRetryTrace sleep t timeout interval w
  = (Return (out, err, 1%nat), if retry then sleep interval w1 else w1) /\
  DoRetryWithTimeout sleep t timeout interval w
  = (Return (out, err), if retry then sleep interval w1 else w1).
Proof.
  intros Ht E.
  assert (G : DoRetryTrace sleep t timeout interval w
              = (Return (out, err, 1%nat), if retry then sleep interval w1 else w1)).
  { unfold DoRetryTrace. destruct retry.
    - apply retry_loop_deadline; [exact E | lia].
    - apply retry_loop_stop; exact E. }
  split; [exact G|]. unfold DoRetryWithTimeout. rewrite G. reflexivity.
Qed.

End ExecutorFacts.

Lemma DoRetry_nonpositive_timeout_once_witness :
  DoRetryTrace (fun _ n => n) countingTask 0 (5 * Second) 0%nat
  = (Return (INil, Some ErrPodsNotFound, 1%nat), 1%nat) /\
  DoRetryWithTimeout (fun _ n => n) countingTask 0 (5 * Second) 0%nat
  = (Return (INil, Some ErrPodsNotFound), 1%nat).
Proof.
  apply (DoRetry_nonpositive_timeout_once (fun _ n => n) countingTask 0 (5 * Second) 0%nat
           INil true (Some ErrPodsNotFound) 1%nat).
  - lia.
  - reflexivity.
Defined.

(* ================================================================== *)
(** * Stepping through the monad *)
(* ================================================================== *)

Lemma bind_Return {A B} (m : M A) (f : A -> M B) (w : World) (b : B) (w' : World) :
  bind m f w = (Return b, w') ->
  exists a w1, m w = (Return a, w1) /\ f a w1 = (Return b, w').
Proof.
  unfold bind. destruct (m w) as [[a| |] w1]; try discriminate. eauto.
Qed.

Lemma bind_eq {A B} (m : M A) (f : A -> M B) (w : World) (a : A) (w1 : World) :
  m w = (Return a, w1) -> bind m f w = f a w1.
Proof.
  intros H. unfold bind. now rewrite H.
Qed.

Lemma returns_ret {A} (a : A) : returns (ret a).
Proof. intros w. now exists a, w. Qed.

Lemma returns_bind {A B} (m : M A) (f : A -> M B) :
  returns m -> (forall a, returns (f a)) -> returns (bind m f).
Proof.
  intros Hm Hf w. destruct (Hm w) as (a & w1 & E).
  destruct (Hf a w1) as (b & w2 & E2). exists b, w2.
  now rewrite (bind_eq _ _ _ _ _ E).
Qed.

Lemma returns_request {A} (serve : Cluster -> (A + string) * Cluster) :
  returns (request serve).
Proof.
  intros w. unfold request.
  destruct (faults w) as [|[msg|] rest]; try destruct (serve (cluster w)); eauto.
Qed.

(** A request that is answered was served from the store, one entry
    further down the fault script. *)
Lemma request_served {A} (serve : Cluster -> (A + string) * Cluster) w a w' :
  request serve w = (Return (inl a), w') ->
  serve (cluster w) = (inl a, cluster w') /\ client w' = client w /\
  faults w' = tl (faults w).
Proof.
  unfold request.
  destruct (faults w) as [|[msg|] rest]; try discriminate;
    destruct (serve (cluster w)) as [r c]; intros [= -> <-]; simpl; auto.
Qed.

(** With no fault at the head of the script the store answers. *)
Lemma request_quiet {A} (serve : Cluster -> (A + string) * Cluster) w :
  hd None (faults w) = None ->
  request serve w
  = (Return (fst (serve (cluster w))),
     {| client := client w; cluster := snd (serve (cluster w)); faults := tl (faults w) |}).
Proof.
  unfold request. destruct (faults w) as [|[msg|] rest]; simpl; try discriminate;
    destruct (serve (cluster w)); reflexivity.
Qed.

(** A faulted request leaves the store alone. *)
Lemma request_faulted {A} (serve : Cluster -> (A + string) * Cluster) w msg rest :
  faults w = Some msg :: rest ->
  request serve w
  = (Return (inr msg), {| client := client w; cluster := cluster w; faults := rest |}).
Proof.
  unfold request. now intros ->.
Qed.

Lemma returns_initK8sClient : returns initK8sClient.
Proof.
  intros w. unfold initK8sClient. destruct (client w); [apply returns_ret|].
  revert w. apply returns_bind; [apply returns_request|].
  intros [[]|e]; [|apply returns_ret].
  apply returns_bind; [apply returns_request|].
  intros [[]|e]; [|apply returns_ret].
  apply returns_bind; [|intros; apply returns_ret].
  intros w. unfold setClient. eauto.
Qed.

Lemma initK8sClient_connected w :
  client w = true -> initK8sClient w = (Return None, w).
Proof.
  intros H. unfold initK8sClient. now rewrite H.
Qed.

(** Once [initK8sClient] has succeeded the client is there. *)
Lemma initK8sClient_ok w w' :
  initK8sClient w = (Return None, w') -> client w' = true.
Proof.
  unfold initK8sClient. destruct (client w) eqn:C.
  - unfold ret. now intros [= <-].
  - intros H.
    apply bind_Return in H as ([[]|e] & w1 & _ & H); [|discriminate].
    apply bind_Return in H as ([[]|e] & w2 & _ & H); [|discriminate].
    apply bind_Return in H as ([] & w3 & H3 & H).
    unfold setClient in H3. injection H3 as <-. unfold ret in H. now injection H as <-.
Qed.

Lemma returns_GetNodeByName name : returns (GetNodeByName name).
Proof.
  apply returns_bind; [apply returns_initK8sClient|].
  intros [e|]; [apply returns_ret|].
  apply returns_bind; [apply returns_request|].
  intros [n|e]; apply returns_ret.
Qed.

(* ================================================================== *)
(** * Cordon, uncordon and drain *)
(* ================================================================== *)

Lemma find_replaced (n : Node) (l : list Node) :
  existsb (fun m => String.eqb (node_Name m) (node_Name n)) l = true ->
  find (fun m => String.eqb (node_Name m) (node_Name n))
       (map (fun m => if String.eqb (node_Name m) (node_Name n) then n else m) l)
  = Some n.
Proof.
  induction l as [|m l IH]; simpl; [discriminate|].
  destruct (String.eqb (node_Name m) (node_Name n)) eqn:E; simpl.
  - now rewrite String.eqb_refl.
  - rewrite E. exact IH.
Qed.

(** A successful update is what a later read of that name finds. *)
Lemma nodes_Update_stored (n : Node) w r w' :
  nodes_Update n w = (Return (inl r), w') ->
  find (fun m => String.eqb (node_Name m) (node_Name n)) (nodes (cluster w')) = Some n.
Proof.
  intros H. apply request_served in H as (H & _).
  destruct (existsb _ (nodes (cluster w))) eqn:E; [|discriminate].
  injection H as _ <-. simpl. now apply find_replaced.
Qed.

Lemma nodes_Get_name name w n w' :
  nodes_Get name w = (Return (inl n), w') -> node_Name n = name.
Proof.
  intros H. apply request_served in H as (H & _).
  destruct (find _ (nodes (cluster w))) as [m|] eqn:E; [|discriminate].
  injection H as -> _. apply find_some in E as [_ E]. now apply String.eqb_eq.
Qed.

Lemma GetNodeByName_name name w n w' :
  GetNodeByName name w = (Return (inl n), w') -> node_Name n = name.
Proof.
  intros H. unfold GetNodeByName in H.
  apply bind_Return in H as ([e|] & w1 & _ & H); [discriminate|].
  apply bind_Return in H as ([m|e] & w2 & HG & H); [|discriminate].
  unfold ret in H. injection H as -> _. eapply nodes_Get_name; eauto.
Qed.

Section NodeFacts.

Variable sleep : Duration -> World -> World.

Lemma returns_UnCordonNode_t nodeName : returns (UnCordonNode_t nodeName).
Proof.
  apply returns_bind; [apply returns_initK8sClient|].
  intros [e|]; [apply returns_ret|].
  apply returns_bind; [apply returns_GetNodeByName|].
  intros [n|e]; [|apply returns_ret].
  apply returns_bind; [apply returns_request|].
  intros [m|e]; apply returns_ret.
Qed.

(** The poll body of [UnCordonNode] reports a nil error only after
    writing the node back with the unschedulable flag cleared. *)
Lemma UnCordonNode_t_nil nodeName w out retry w1 :
  UnCordonNode_t nodeName w = (Return (out, retry, None), w1) ->
  retry = false /\ cordonState nodeName w1 = Some false.
Proof.
  intros H. unfold UnCordonNode_t in H.
  apply bind_Return in H as ([e|] & wa & _ & H); [discriminate|].
  apply bind_Return in H as ([n|e] & wb & HG & H); [|discriminate].
  apply bind_Return in H as ([m|e] & wc & HU & H); [|discriminate].
  unfold ret in H. injection H as _ <- <-. split; [reflexivity|].
  apply GetNodeByName_name in HG. apply nodes_Update_stored in HU.
  simpl in HU. rewrite HG in HU. unfold cordonState. now rewrite HU.
Qed.

Lemma runTask_returns t timeout interval :
  0 < interval -> returns t -> returns (runTask sleep t timeout interval).
Proof.
  intros Hi Ht w. unfold runTask, bind, DoRetryWithTimeout.
  destruct (DoRetryTrace_returns sleep t timeout interval w Hi Ht)
    as (out & err & m & w' & E).
  rewrite E. destruct err; unfold ret; eauto.
Qed.

(** The error [runTask] hands back is the one of the last attempt. *)
Lemma runTask_last t timeout interval w err w' :
  runTask sleep t timeout interval w = (Return err, w') ->
  exists w0 w1 out retry,
    t w0 = (Return (out, retry, err), w1) /\
    w' = (if retry then sleep interval w1 else w1).
Proof.
  unfold runTask, bind, DoRetryWithTimeout, DoRetryTrace.
  destruct (retry_loop _ _ _ _ _ _ _ w) as [[[[out e] m]| |] w2] eqn:E; try discriminate.
  intros H. apply retry_loop_last in E as (w0 & w1 & retry & Et & ->).
  exists w0, w1, out, retry. split; [|destruct e; unfold ret in H; now injection H].
  destruct e; unfold ret in H; injection H as <- _; exact Et.
Qed.

(** And that attempt was made from a world the executor polls from. *)
Lemma runTask_reached t timeout interval w err w' :
  runTask sleep t timeout interval w = (Return err, w') ->
  exists w0 w1 out retry,
    polled sleep t interval w w0 /\
    t w0 = (Return (out, retry, err), w1) /\
    w' = (if retry then sleep interval w1 else w1).
Proof.
  unfold runTask, bind, DoRetryWithTimeout, DoRetryTrace.
  destruct (retry_loop _ _ _ _ _ _ _ w) as [[[[out e] m]| |] w2] eqn:E; try discriminate.
  intros H.
  apply (retry_loop_reached sleep _ _ _ _ w) in E as (w0 & w1 & retry & Hp & Et & ->);
    [|apply polled_first].
  exists w0, w1, out, retry. split; [exact Hp|].
  split; [|destruct e; unfold ret in H; now injection H].
  destruct e; unfold ret in H; injection H as <- _; exact Et.
Qed.

Lemma returns_UnCordonNode nodeName : returns (UnCordonNode sleep nodeName).
Proof.
  apply runTask_returns; [unfold nodeUpdateRetryInterval, Second; lia|].
  apply returns_UnCordonNode_t.
Qed.

(** A successful [UnCordonNode] leaves the node schedulable. *)
Lemma UnCordonNode_nil nodeName w w' :
  UnCordonNode sleep nodeName w = (Return None, w') ->
  cordonState nodeName w' = Some false.
Proof.
  intros H. apply runTask_last in H as (w0 & w1 & out & retry & Ht & ->).
  apply UnCordonNode_t_nil in Ht as [-> Hs]. exact Hs.
Qed.

(** C2, as the code has it.  When the cordon step succeeds and the
    deletion of the pods fails, [DrainPodsFromNode] runs the
    compensating [UnCordonNode], which always comes back, and returns
    the deletion error whatever the uncordon reported; if the uncordon
    succeeded the node ends schedulable, which is the state it had
    before exactly when it was schedulable before. *)
Theorem Drain_rollback nodeName pods timeout w w1 w2 e :
  CordonNode sleep nodeName w = (Return None, w1) ->
  DeletePods pods false w1 = (Return (Some e), w2) ->
  exists e' w3,
    UnCordonNode sleep nodeName w2 = (Return e', w3) /\
    DrainPodsFromNode sleep nodeName pods timeout w = (Return (Some e), w3) /\
    (e' = None -> cordonState nodeName w3 = Some false) /\
    (e' = None -> cordonState nodeName w = Some false ->
     cordonState nodeName w3 = cordonState nodeName w).
Proof.
  intros HC HD.
  destruct (returns_UnCordonNode nodeName w2) as (e' & w3 & HU).
  exists e', w3. split; [exact HU|]. split; [|split].
  - unfold DrainPodsFromNode.
    rewrite (bind_eq _ _ _ _ _ HC). rewrite (bind_eq _ _ _ _ _ HD).
    rewrite (bind_eq _ _ _ _ _ HU). reflexivity.
  - intros ->. eapply UnCordonNode_nil; eauto.
  - intros -> Hw. rewrite Hw. eapply UnCordonNode_nil; eauto.
Qed.

End NodeFacts.

(** C2, as stated, fails on a node that was cordoned before the call:
    the cordon succeeds, the deletion is refused, the deletion error is
    returned, and the rollback leaves the node schedulable.  It also
    fails on a schedulable node when the rollback itself fails: the
    node stays cordoned. *)
Lemma Drain_rollback_changes_cordoned_node :
  (cordonState "node-1" (drainWorld cordonedNode) = Some true /\
   fst (CordonNode idle "node-1" (drainWorld cordonedNode)) = Return None /\
   fst (DeletePods [webPod0] false (snd (CordonNode idle "node-1" (drainWorld cordonedNode))))
   = Return (Some (ErrorString "pods is forbidden")) /\
   fst (DrainPodsFromNode idle "node-1" [webPod0] 0 (drainWorld cordonedNode))
   = Return (Some (ErrorString "pods is forbidden")) /\
   cordonState "node-1"
               (snd (DrainPodsFromNode idle "node-1" [webPod0] 0 (drainWorld cordonedNode)))
   = Some false) /\
  (cordonState "node-1" stuckWorld = Some false /\
   fst (CordonNode idle "node-1" stuckWorld) = Return None /\
   fst (DeletePods [webPod0] false (snd (CordonNode idle "node-1" stuckWorld)))
   = Return (Some (ErrorString "pods is forbidden")) /\
   fst (DrainPodsFromNode idle "node-1" [webPod0] 0 stuckWorld)
   = Return (Some (ErrorString "pods is forbidden")) /\
   cordonState "node-1" (snd (DrainPodsFromNode idle "node-1" [webPod0] 0 stuckWorld))
   = Some true).
Proof.
  vm_compute. repeat split; reflexivity.
Qed.

Lemma Drain_rollback_witness :
  exists e' w3,
    UnCordonNode idle "node-1"
      (snd (DeletePods [webPod0] false
              (snd (CordonNode idle "node-1" (drainWorld schedulableNode)))))
    = (Return e', w3) /\
    DrainPodsFromNode idle "node-1" [webPod0] 0 (drainWorld schedulableNode)
    = (Return (Some (ErrorString "pods is forbidden")), w3) /\
    (e' = None -> cordonState "node-1" w3 = Some false) /\
    (e' = None -> cordonState "node-1" (drainWorld schedulableNode) = Some false ->
     cordonState "node-1" w3 = cordonState "node-1" (drainWorld schedulableNode)).
Proof.
  apply (Drain_rollback idle "node-1" [webPod0] 0 (drainWorld schedulableNode)
           (snd (CordonNode idle "node-1" (drainWorld schedulableNode)))
           (snd (DeletePods [webPod0] false
                   (snd (CordonNode idle "node-1" (drainWorld schedulableNode)))))
           (ErrorString "pods is forbidden")).
  - vm_compute. reflexivity.
  - vm_compute. reflexivity.
Defined.

(* ================================================================== *)
(** * Waiting for a pod to go away *)
(* ================================================================== *)

Section WaitFacts.

Variable sleep : Duration -> World -> World.



End WaitFacts.



(* ================================================================== *)
(** * Jobs *)
(* ================================================================== *)

Section JobFacts.

Variable sleep : Duration -> World -> World.





End JobFacts.


(* ================================================================== *)
(** * Checks that a workload is gone *)
(* ================================================================== *)

Section TerminatedFacts.

Variable sleep : Duration -> World -> World.

(** The poll of [ValidateTerminatedStatefulSet] reports a nil error
    only when, the client set up, its fetch answered "not found". *)
Lemma ValidateTerminatedStatefulSet_t_nil statefulset w out retry w' :
  ValidateTerminatedStatefulSet_t statefulset w = (Return (out, retry, None), w') ->
  exists w0 msg,
    initK8sClient w = (Return None, w0) /\
    statefulSets_Get (ss_Namespace statefulset) (ss_Name statefulset) w0
    = (Return (inr msg), w') /\
    matchNotFound msg = true /\ retry = false.
Proof.
  intros H. unfold ValidateTerminatedStatefulSet_t in H.
  apply bind_Return in H as ([e|] & w0 & HI & H); [discriminate|].
  apply bind_Return in H as ([sset|msg] & w1 & HG & H).
  - apply bind_Return in H as ([pods [e|]] & w2 & HP & H); [discriminate|].
    apply GetPodsByOwner_not_nil_nil in HP.
    destruct pods as [|p pods]; [now elim HP | discriminate].
  - destruct (matchNotFound msg) eqn:E; [|discriminate].
    unfold ret in H. injection H as _ <- <-. exists w0, msg. auto.
Qed.

(** C3, as the code has it.  In [ValidateTerminatedStatefulSet] a "not
    found" answer to fetching the resource ends the poll, and the loop,
    with success, the pods not being looked at, and the check succeeds
    in no other way: when it returns nil, its last poll, made from a
    world its polling had come to, set up the client and had its fetch
    answered "not found", which left the world the check ends in.  In
    both checks, while the resource is still
    fetched, owned pods that remain, or a failing pod lookup, are a
    transient failure [ErrAppNotTerminated], never a fatal one; the
    poll of [ValidateTerminatedDeployment] succeeds when the deployment
    is fetched and the pod lookup answers with no pod and no error. *)
Theorem terminated_checks_spec (statefulset : StatefulSet) (deployment : Deployment) :
  (forall w w0 msg w1,
      initK8sClient w = (Return None, w0) ->
      statefulSets_Get (ss_Namespace statefulset) (ss_Name statefulset) w0
      = (Return (inr msg), w1) ->
      matchNotFound msg = true ->
      stopsWith sleep (ValidateTerminatedStatefulSet_t statefulset) (10 * Second) w None w1 /\
      ValidateTerminatedStatefulSet sleep statefulset w = (Return None, w1)) /\
  (forall w w',
      ValidateTerminatedStatefulSet sleep statefulset w = (Return None, w') ->
      exists w0 wa msg,
        polled sleep (ValidateTerminatedStatefulSet_t statefulset) (10 * Second) w w0 /\
        initK8sClient w0 = (Return None, wa) /\
        statefulSets_Get (ss_Namespace statefulset) (ss_Name statefulset) wa
        = (Return (inr msg), w') /\
        matchNotFound msg = true /\
        ValidateTerminatedStatefulSet_t statefulset w0
        = (Return (IString "", false, None), w')) /\
  (forall w w0 sset w1 pods err w2,
      initK8sClient w = (Return None, w0) ->
      statefulSets_Get (ss_Namespace statefulset) (ss_Name statefulset) w0
      = (Return (inl sset), w1) ->
      GetStatefulSetPods statefulset w1 = (Return (pods, err), w2) ->
      exists cause,
        retriesWith sleep (ValidateTerminatedStatefulSet_t statefulset) (10 * Second) w
                    (Some (ErrAppNotTerminated (ss_Name sset) cause)) w2) /\
  (forall w w0 dep w1 pods err w2,
      initK8sClient w = (Return None, w0) ->
      deployments_Get (dep_Namespace deployment) (dep_Name deployment) w0
      = (Return (inl dep), w1) ->
      GetDeploymentPods deployment w1 = (Return (pods, err), w2) ->
      (pods <> [] \/ err <> None ->
       exists cause,
         retriesWith sleep (ValidateTerminatedDeployment_t deployment) (10 * Second) w
                     (Some (ErrAppNotTerminated (dep_Name dep) cause)) w2) /\
      (pods = [] -> err = None ->
       stopsWith sleep (ValidateTerminatedDeployment_t deployment) (10 * Second) w None w2)).
Proof.
  split; [|split; [|split]].
  - intros w w0 msg w1 HI HG Hm.
    assert (E : ValidateTerminatedStatefulSet_t statefulset w
                = (Return (IString "", false, None), w1)).
    { unfold ValidateTerminatedStatefulSet_t.
      rewrite (bind_eq _ _ _ _ _ HI), (bind_eq _ _ _ _ _ HG), Hm. reflexivity. }
    split; [eapply stopsWith_intro; eauto|].
    unfold ValidateTerminatedStatefulSet, runTask, bind, DoRetryWithTimeout, DoRetryTrace.
    now rewrite (retry_loop_stop sleep _ _ _ _ _ _ _ _ _ _ E).
  - intros w w' H.
    apply runTask_reached in H as (w0 & w1 & out & retry & Hp & Ht & ->).
    apply ValidateTerminatedStatefulSet_t_nil in Ht as (wa & msg & HI & HG & Hm & ->).
    exists w0, wa, msg. repeat (split; [assumption|]).
    unfold ValidateTerminatedStatefulSet_t.
    rewrite (bind_eq _ _ _ _ _ HI), (bind_eq _ _ _ _ _ HG), Hm. reflexivity.
  - intros w w0 sset w1 pods err w2 HI HG HP.
    assert (E : exists cause,
               ValidateTerminatedStatefulSet_t statefulset w
               = (Return (IString "", true,
                          Some (ErrAppNotTerminated (ss_Name sset) cause)), w2)).
    { unfold ValidateTerminatedStatefulSet_t.
      rewrite (bind_eq _ _ _ _ _ HI), (bind_eq _ _ _ _ _ HG), (bind_eq _ _ _ _ _ HP).
      destruct err as [e|]; [unfold ret; eauto|].
      apply GetPodsByOwner_not_nil_nil in HP.
      destruct pods as [|p pods]; [now elim HP|]. unfold ret; simpl; eauto. }
    destruct E as (cause & E). exists cause. eapply retriesWith_intro; eauto.
  - intros w w0 dep w1 pods err w2 HI HG HP.
    assert (E : ValidateTerminatedDeployment_t deployment w
                = match err with
                  | Some _ =>
                      (Return (IString "", true,
                               Some (ErrAppNotTerminated (dep_Name dep)
                                       (FailedToGetPods "deployment" err))), w2)
                  | None =>
                      if negb (isNil pods) && (0 <? length pods)%nat
                      then (Return (IString "", true,
                                    Some (ErrAppNotTerminated (dep_Name dep)
                                            (PodsStillPresent pods))), w2)
                      else (Return (IString "", false, None), w2)
                  end).
    { unfold ValidateTerminatedDeployment_t.
      rewrite (bind_eq _ _ _ _ _ HI), (bind_eq _ _ _ _ _ HG), (bind_eq _ _ _ _ _ HP).
      destruct err; [reflexivity|].
      destruct (negb (isNil pods) && (0 <? length pods)%nat); reflexivity. }
    split.
    + intros Hne. destruct err as [e|].
      * eexists. eapply retriesWith_intro; eauto.
      * destruct pods as [|p pods]; [destruct Hne as [Hne|Hne]; now elim Hne|].
        simpl in E. eexists. eapply retriesWith_intro; eauto.
    + intros -> ->. simpl in E. eapply stopsWith_intro; eauto.
Qed.

End TerminatedFacts.

(** C3, as stated, fails both ways.  [ValidateTerminatedStatefulSet]
    succeeds on a stateful set that is gone while a pod it owns is
    still listed; [ValidateTerminatedDeployment] succeeds on a
    deployment that is still there, once no replica set names it. *)
Lemma terminated_checks_succeed_otherwise :
  (fst (statefulSets_Get "default" "db" orphanWorld)
   = Return (inr (notFound "statefulsets.apps" "db")) /\
   fst (GetStatefulSetPods dbSet orphanWorld) = Return ([dbPod], None) /\
   fst (ValidateTerminatedStatefulSet idle dbSet orphanWorld) = Return None) /\
  (fst (deployments_Get "default" "web" lingeringWorld) = Return (inl idleDeployment) /\
   fst (ValidateTerminatedDeployment idle idleDeployment lingeringWorld) = Return None).
Proof.
  vm_compute. repeat split; reflexivity.
Qed.

Lemma terminated_checks_spec_witness :
  ValidateTerminatedStatefulSet idle dbSet orphanWorld = (Return None, orphanWorld).
Proof.
  refine (proj2 (proj1 (terminated_checks_spec idle dbSet idleDeployment)
                       orphanWorld orphanWorld (notFound "statefulsets.apps" "db")
                       orphanWorld eq_refl _ _)).
  - vm_compute. reflexivity.
  - vm_compute. reflexivity.
Defined.

(** On a deployment that is gone the poll of
    [ValidateTerminatedDeployment] answers "retry" with a nil error,
    where the poll of [ValidateTerminatedStatefulSet] answers "done":
    the executor of section 4.1 polls until the deadline, sixty times,
    before it returns nil. *)
Lemma ValidateTerminatedDeployment_polls_absent_deployment :
  fst (ValidateTerminatedDeployment_t idleDeployment (connected emptyCluster []))
  = Return (IString "", true, None) /\
  fst (DoRetryTrace idle (ValidateTerminatedDeployment_t idleDeployment)
                    (10 * Minute) (10 * Second) (connected emptyCluster []))
  = Return (IString "", None, 60%nat).
Proof.
  vm_compute. split; reflexivity.
Qed.

(* ================================================================== *)
(** * Labelling a node *)
(* ================================================================== *)

(** While every read finds the node without the label value and every
    update is refused, the loop runs out and returns the error it was
    given, with the store as it was. *)
Lemma addLabelLoop_refused (name key value : string) (node : Node)
      (labels : gmap string string) (c : bool) (store : Cluster) (err : option error) :
  find (fun n => String.eqb (node_Name n) name) (nodes store) = Some node ->
  node_Labels node = Some labels ->
  labels !! key <> Some value ->
  forall (refusals : list string) (rest : list (option string)),
    addLabelLoop (length refusals) err name key value
                 {| client := c; cluster := store; faults := refuseUpdates refusals ++ rest |}
    = (Return err, {| client := c; cluster := store; faults := rest |}).
Proof.
  intros Hfind Hlabels Hne. induction refusals as [|msg refusals IH]; intros rest.
  - reflexivity.
  - simpl. unfold bind at 1. unfold nodes_Get at 1, request at 1. simpl.
    rewrite Hfind, Hlabels.
    assert (E : match labels !! key with
                | Some val => String.eqb val value
                | None => false
                end = false).
    { destruct (labels !! key) as [val|] eqn:L; [|reflexivity].
      apply String.eqb_neq. congruence. }
    rewrite E. unfold bind at 1. unfold nodes_Update at 1, request at 1. simpl.
    apply IH.
Qed.

(** C10, as the code has it.  When every read of the node succeeds and
    yields a node with a label map that does not hold the value under
    the key, and each of the [labelUpdateMaxRetries] updates is refused,
    [AddLabelOnNode] returns nil, and the store is as it was: nothing
    was written. *)
Theorem AddLabelOnNode_reports_success (name key value : string) (w w0 : World)
        (node : Node) (labels : gmap string string) (refusals : list string)
        (rest : list (option string)) :
  initK8sClient w = (Return None, w0) ->
  find (fun n => String.eqb (node_Name n) name) (nodes (cluster w0)) = Some node ->
  node_Labels node = Some labels ->
  labels !! key <> Some value ->
  length refusals = labelUpdateMaxRetries ->
  faults w0 = refuseUpdates refusals ++ rest ->
  AddLabelOnNode name key value w
  = (Return None, {| client := client w0; cluster := cluster w0; faults := rest |}).
Proof.
  intros HI Hfind Hlabels Hne Hlen Hfaults.
  unfold AddLabelOnNode. rewrite (bind_eq _ _ _ _ _ HI). rewrite <- Hlen.
  destruct w0 as [c store script]. simpl in *. subst script.
  now apply addLabelLoop_refused with (node := node) (labels := labels).
Qed.

(** C10, as stated, fails on a node whose label map is nil: the read
    succeeds, the label is not there, and the write into the nil map
    panics before any update is sent. *)
Lemma AddLabelOnNode_nil_labels_panics :
  fst (nodes_Get "node-1"
         (connected (set_nodes [unlabelledNode] emptyCluster) (refuseUpdates conflicts)))
  = Return (inl unlabelledNode) /\
  fst (AddLabelOnNode "node-1" "zone" "a"
         (connected (set_nodes [unlabelledNode] emptyCluster) (refuseUpdates conflicts)))
  = Panic nilMapWrite.
Proof.
  vm_compute. split; reflexivity.
Qed.

Lemma AddLabelOnNode_reports_success_witness :
  AddLabelOnNode "node-1" "zone" "a"
    (connected (set_nodes [schedulableNode] emptyCluster) (refuseUpdates conflicts))
  = (Return None, connected (set_nodes [schedulableNode] emptyCluster) []).
Proof.
  refine (AddLabelOnNode_reports_success "node-1" "zone" "a"
            (connected (set_nodes [schedulableNode] emptyCluster) (refuseUpdates conflicts))
            (connected (set_nodes [schedulableNode] emptyCluster) (refuseUpdates conflicts))
            schedulableNode (<["role" := "worker"]> ∅) conflicts []
            eq_refl eq_refl eq_refl _ eq_refl eq_refl).
  vm_compute. discriminate.
Defined.

(* ================================================================== *)
(** * The replica count a deployment is held to *)
(* ================================================================== *)

Lemma isPVCShared_false (claim : PersistentVolumeClaim) :
  isPVCShared claim = false <-> unshared claim.
Proof.
  unfold isPVCShared, unshared. rewrite existsb_false_iff. split.
  - intros H mode Hin. specialize (H mode Hin). apply orb_false_iff in H as [H1 H2].
    split; now apply String.eqb_neq.
  - intros H mode Hin. destruct (H mode Hin) as [H1 H2].
    apply orb_false_iff. split; now apply String.eqb_neq.
Qed.

Lemma isPVCShared_true (claim : PersistentVolumeClaim) :
  isPVCShared claim = true <-> ~ unshared claim.
Proof.
  rewrite <- isPVCShared_false. destruct (isPVCShared claim); split; congruence.
Qed.

Lemma quiet_S (k : nat) (w : World) :
  quiet (S k) w ->
  hd None (faults w) = None /\
  quiet k {| client := client w; cluster := cluster w; faults := tl (faults w) |}.
Proof.
  unfold quiet. simpl. destruct (faults w) as [|f fs]; simpl.
  - intros _. split; [reflexivity|]. destruct k; constructor.
  - intros H. inversion H; subst. now split.
Qed.

Lemma persistentVolumeClaims_Get_quiet namespace name w claim :
  hd None (faults w) = None ->
  findClaim namespace name (cluster w) = Some claim ->
  persistentVolumeClaims_Get namespace name w
  = (Return (inl claim),
     {| client := client w; cluster := cluster w; faults := tl (faults w) |}).
Proof.
  intros Hq Hf. unfold persistentVolumeClaims_Get. rewrite request_quiet by exact Hq.
  unfold findClaim in Hf. now rewrite Hf.
Qed.

(** The scan over the template's volumes, when the claims are in the
    store and the requests for them go through. *)
Lemma scanVolumes_quiet (namespace : string) (volumes : list Volume) :
  forall (found : bool) (w : World),
    claimsInStore (cluster w) namespace volumes ->
    quiet (pvcCount volumes) w ->
    exists shared found' w',
      scanVolumes namespace volumes found w = (Return (inr (shared, found')), w') /\
      cluster w' = cluster w /\ client w' = client w /\
      (shared = true -> someShared (cluster w) namespace volumes /\ found' = true) /\
      (shared = false ->
       noneShared (cluster w) namespace volumes /\
       found' = found || existsb mounts volumes).
Proof.
  induction volumes as [|vol rest IH]; intros found w HS HQ.
  - exists false, found, w. simpl. split; [reflexivity|].
    split; [reflexivity|]. split; [reflexivity|]. split; [discriminate|].
    intros _. split; [intros v c [] | now rewrite orb_false_r].
  - assert (HSrest : claimsInStore (cluster w) namespace rest).
    { intros v src Hin. apply HS. now right. }
    simpl. unfold pvcCount in HQ. simpl in HQ. unfold mounts at 1 in HQ.
    unfold mounts at 1.
    destruct (vol_PersistentVolumeClaim vol) as [source|] eqn:EV.
    + destruct (HS vol source (or_introl eq_refl) EV) as (claim & Hclaim).
      apply quiet_S in HQ as [Hhd HQ].
      set (w1 := {| client := client w; cluster := cluster w; faults := tl (faults w) |}) in *.
      unfold bind.
      rewrite (persistentVolumeClaims_Get_quiet _ _ _ _ Hhd Hclaim). fold w1.
      destruct (isPVCShared claim) eqn:ES.
      * exists true, true, w1.
        split; [reflexivity|]. split; [reflexivity|]. split; [reflexivity|].
        split; [|discriminate]. intros _. split; [|reflexivity].
        exists vol, claim. split; [now left|]. split; [exists source; now split|].
        now apply isPVCShared_true.
      * destruct (IH true w1 HSrest HQ) as (shared & found' & w' & E & Hc & Hk & Ht & Hf).
        exists shared, found', w'. simpl in Hc, Hk.
        split; [exact E|]. split; [exact Hc|]. split; [exact Hk|]. split.
        -- intros H. destruct (Ht H) as [(v & c & Hin & Hm & Hu) Hfd]. split; [|exact Hfd].
           exists v, c. split; [now right|]. now split.
        -- intros H. destruct (Hf H) as [Hn Hfd]. split.
           ++ intros v c [<-|Hin] Hm.
              ** destruct Hm as (src & Hsrc & Hfc). rewrite EV in Hsrc.
                 injection Hsrc as <-. rewrite Hclaim in Hfc. injection Hfc as <-.
                 now apply isPVCShared_false.
              ** now apply (Hn v c).
           ++ rewrite Hfd. simpl. now rewrite orb_true_r.
    + destruct (IH found w HSrest HQ) as (shared & found' & w' & E & Hc & Hk & Ht & Hf).
      exists shared, found', w'.
      split; [exact E|]. split; [exact Hc|]. split; [exact Hk|]. split.
      * intros H. destruct (Ht H) as [(v & c & Hin & Hm & Hu) Hfd]. split; [|exact Hfd].
        exists v, c. split; [now right|]. now split.
      * intros H. destruct (Hf H) as [Hn Hfd]. split; [|exact Hfd].
        intros v c [<-|Hin] Hm.
        -- destruct Hm as (src & Hsrc & _). congruence.
        -- now apply (Hn v c).
Qed.

Lemma wrap32_small (z : Z) : 0 <= z < 2 ^ 31 -> wrap32 z = z.
Proof.
  intros H. unfold wrap32. rewrite Z.mod_small; lia.
Qed.

Lemma countReady_acc (pods : list Pod) :
  forall (names : list string) (n : Z),
    0 <= n -> n + Z.of_nat (length pods) < 2 ^ 31 ->
    snd (fold_left
           (fun acc pod =>
              let '(notReadyPods, readyCount) := acc in
              if negb (IsPodReady pod) then (notReadyPods ++ [pod_Name pod], readyCount)
              else (notReadyPods, wrap32 (readyCount + 1)))
           pods (names, n))
    = n + readyPods pods.
Proof.
  unfold readyPods. induction pods as [|p pods IH]; intros names n Hn Hb.
  - simpl. lia.
  - simpl fold_left. simpl List.filter. simpl length in Hb.
    destruct (IsPodReady p); simpl negb; cbv iota.
    + rewrite wrap32_small by lia. rewrite IH by lia. simpl length. lia.
    + rewrite IH by lia. lia.
Qed.

(** Below 2^31 pods the ready counter does not wrap. *)
Lemma countReady_readyPods (pods : list Pod) :
  Z.of_nat (length pods) < 2 ^ 31 -> snd (countReady pods) = readyPods pods.
Proof.
  intros H. unfold countReady. rewrite countReady_acc; lia.
Qed.

Lemma shared_or_not (c : Cluster) (namespace : string) (volumes : list Volume) :
  someShared c namespace volumes -> noneShared c namespace volumes -> False.
Proof.
  intros (vol & claim & Hin & Hm & Hu) Hn. exact (Hu (Hn vol claim Hin Hm)).
Qed.

(** The replica count the poll settles on, when the claims are in the
    store and the requests for them go through. *)
Lemma requiredReplicasOf_quiet (dep : Deployment) (declared : Z) (w : World) :
  claimsInStore (cluster w) (dep_Namespace dep) (dep_Volumes dep) ->
  quiet (pvcCount (dep_Volumes dep)) w ->
  exists required w',
    requiredReplicasOf dep declared w = (Return (inr required), w') /\
    cluster w' = cluster w /\
    (existsb mounts (dep_Volumes dep) = true ->
     noneShared (cluster w) (dep_Namespace dep) (dep_Volumes dep) -> required = 1) /\
    (someShared (cluster w) (dep_Namespace dep) (dep_Volumes dep) -> required = declared).
Proof.
  intros HS HQ. unfold requiredReplicasOf.
  destruct (declared =? 1)%Z eqn:D; simpl.
  - apply Z.eqb_eq in D. exists declared, w. split; [reflexivity|].
    split; [reflexivity|]. split; auto.
  - destruct (scanVolumes_quiet _ _ false w HS HQ)
      as (shared & found' & w' & E & Hc & _ & Ht & Hf).
    rewrite (bind_eq _ _ _ _ _ E). destruct shared.
    + destruct (Ht eq_refl) as [Hsome ->]. simpl. exists declared, w'.
      split; [reflexivity|]. split; [exact Hc|]. split; [|reflexivity].
      intros _ Hn. elim (shared_or_not _ _ _ Hsome Hn).
    + destruct (Hf eq_refl) as [Hnone ->]. simpl.
      destruct (existsb mounts (dep_Volumes dep)) eqn:EM; simpl.
      * exists 1, w'. split; [reflexivity|]. split; [exact Hc|]. split; [reflexivity|].
        intros Hsome. elim (shared_or_not _ _ _ Hsome Hnone).
      * exists declared, w'. split; [reflexivity|]. split; [exact Hc|].
        split; [discriminate|]. intros Hsome. elim (shared_or_not _ _ _ Hsome Hnone).
Qed.

(** The readiness half of the poll succeeds exactly on
    [deploymentConverged], and is a transient failure otherwise. *)
Lemma deploymentReady_verdict (deployment dep : Deployment) (required : Z) (w : World)
      (pods : list Pod) (err : option error) (w' : World) :
  GetDeploymentPods deployment w = (Return (pods, err), w') ->
  Z.of_nat (length pods) < 2 ^ 31 ->
  (deploymentConverged dep required pods err ->
   deploymentReady deployment dep required w = (Return (IString "", false, None), w')) /\
  (~ deploymentConverged dep required pods err ->
   exists cause,
     deploymentReady deployment dep required w
     = (Return (IString "", true, Some (ErrAppNotReady (dep_Name dep) cause)), w')).
Proof.
  intros HP Hlen. unfold deploymentReady, deploymentConverged.
  rewrite (bind_eq _ _ _ _ _ HP).
  destruct err as [e|]; simpl.
  { split; [intros [H _]; discriminate | intros _; unfold ret; eauto]. }
  destruct pods as [|p pods]; simpl isNil; cbv iota.
  { split; [intros (_ & H & _); now elim H | intros _; unfold ret; eauto]. }
  simpl (length (p :: pods) =? 0)%nat. cbv iota.
  destruct (Z.gtb_spec required (dep_AvailableReplicas dep)) as [Ha|Ha].
  { split; [intros (_ & _ & H & _); lia | intros _; unfold ret; eauto]. }
  destruct (Z.gtb_spec required (dep_ReadyReplicas dep)) as [Hr|Hr].
  { split; [intros (_ & _ & _ & H & _); lia | intros _; unfold ret; eauto]. }
  pose proof (countReady_readyPods (p :: pods) Hlen) as HC.
  destruct (countReady (p :: pods)) as [names cnt]. simpl in HC. subst cnt.
  destruct (Z.geb_spec (readyPods (p :: pods)) required) as [Hc|Hc].
  - split; [reflexivity|]. intros H. elim H. repeat split; auto; discriminate.
  - split; [intros (_ & _ & _ & _ & H); lia | intros _; unfold ret; eauto].
Qed.

Section DeploymentFacts.

Variable sleep : Duration -> World -> World.

(** C1, as the code has it.  In the poll of [ValidateDeployment], once
    the deployment is fetched with its declared replica count, its
    mounted claims being in the store and the requests for them going
    through: the readiness check runs with a required count that is 1
    when the template mounts a claim and none of the mounted claims has
    a ReadOnlyMany or ReadWriteMany access mode, whatever count is
    declared, and that is the declared count when one of the mounted
    claims has such a mode.  The check then succeeds exactly when the
    available and the ready replicas of the status and the number of
    ready pods all reach the required count, and is a transient failure
    otherwise. *)
Theorem ValidateDeployment_replica_override (deployment : Deployment) (w w0 : World)
        (dep : Deployment) (w1 : World) (declared : Z) :
  initK8sClient w = (Return None, w0) ->
  deployments_Get (dep_Namespace deployment) (dep_Name deployment) w0
  = (Return (inl dep), w1) ->
  dep_Replicas dep = Some declared ->
  claimsInStore (cluster w1) (dep_Namespace dep) (dep_Volumes dep) ->
  quiet (pvcCount (dep_Volumes dep)) w1 ->
  exists required w2,
    ValidateDeployment_t deployment w = deploymentReady deployment dep required w2 /\
    cluster w2 = cluster w1 /\
    (existsb mounts (dep_Volumes dep) = true ->
     noneShared (cluster w1) (dep_Namespace dep) (dep_Volumes dep) -> required = 1) /\
    (someShared (cluster w1) (dep_Namespace dep) (dep_Volumes dep) -> required = declared) /\
    (forall pods err w3,
        GetDeploymentPods deployment w2 = (Return (pods, err), w3) ->
        Z.of_nat (length pods) < 2 ^ 31 ->
        (deploymentConverged dep required pods err ->
         stopsWith sleep (ValidateDeployment_t deployment) (10 * Second) w None w3 /\
         ValidateDeployment sleep deployment w = (Return None, w3)) /\
        (~ deploymentConverged dep required pods err ->
         exists cause,
           retriesWith sleep (ValidateDeployment_t deployment) (10 * Second) w
                       (Some (ErrAppNotReady (dep_Name dep) cause)) w3)).
Proof.
  intros HI HG HR HS HQ.
  destruct (requiredReplicasOf_quiet dep declared w1 HS HQ)
    as (required & w2 & ER & Hc & H1 & Hd).
  assert (E : ValidateDeployment_t deployment w = deploymentReady deployment dep required w2).
  { unfold ValidateDeployment_t.
    rewrite (bind_eq _ _ _ _ _ HI), (bind_eq _ _ _ _ _ HG), HR.
    now rewrite (bind_eq _ _ _ _ _ ER). }
  exists required, w2. split; [exact E|]. split; [exact Hc|].
  split; [exact H1|]. split; [exact Hd|].
  intros pods err w3 HP Hlen.
  destruct (deploymentReady_verdict deployment dep required w2 pods err w3 HP Hlen)
    as [Hok Hno].
  split.
  - intros Hconv. rewrite <- E in Hok. specialize (Hok Hconv). split.
    + eapply stopsWith_intro; eauto.
    + unfold ValidateDeployment, runTask, bind, DoRetryWithTimeout, DoRetryTrace.
      now rewrite (retry_loop_stop sleep _ _ _ _ _ _ _ _ _ _ Hok).
  - intros Hconv. rewrite <- E in Hno. destruct (Hno Hconv) as (cause & Ec).
    exists cause. eapply retriesWith_intro; eauto.
Qed.

End DeploymentFacts.

(** Three replicas declared on a ReadWriteOnce claim, one ready: the
    deployment validates. *)
Lemma ValidateDeployment_unshared_one_ready :
  fst (ValidateDeployment idle (webDeployment [claimVolume "data"] 1 1)
         (webWorld (webDeployment [claimVolume "data"] 1 1) [webPod0; webPod1; webPod2]))
  = Return None.
Proof. vm_compute. reflexivity. Qed.

(** The same on a ReadWriteMany claim: all three replicas are waited
    for, and with all three ready the deployment validates. *)
Lemma ValidateDeployment_shared_needs_all :
  (exists overview,
      fst (ValidateDeployment idle (webDeployment [claimVolume "shared"] 1 1)
             (webWorld (webDeployment [claimVolume "shared"] 1 1)
                       [webPod0; webPod1; webPod2]))
      = Return (Some (ErrAppNotReady "web" (ExpectedAvailable 3 1 overview)))) /\
  fst (ValidateDeployment idle (webDeployment [claimVolume "shared"] 3 3)
         (webWorld (webDeployment [claimVolume "shared"] 3 3)
                   [webPod0; webPod1Ready; webPod2Ready]))
  = Return None.
Proof. split; [eexists|]; vm_compute; reflexivity. Qed.

(** C1, as stated, fails for [ValidateStatefulSet], which has no such
    override: three replicas declared on a ReadWriteOnce claim with one
    ready are not validated.  It also fails for a deployment that
    mounts a ReadWriteOnce claim next to a ReadWriteMany one: all three
    replicas are waited for. *)
Lemma replica_override_not_everywhere :
  (exists overview,
      fst (ValidateStatefulSet idle dataSet (30 * Second) dataSetWorld)
      = Return (Some (ErrAppNotReady "db" (ExpectedReady 3 1 overview)))) /\
  (exists overview,
      fst (ValidateDeployment idle
             (webDeployment [claimVolume "data"; claimVolume "shared"] 1 1)
             (webWorld (webDeployment [claimVolume "data"; claimVolume "shared"] 1 1)
                       [webPod0; webPod1; webPod2]))
      = Return (Some (ErrAppNotReady "web" (ExpectedAvailable 3 1 overview)))).
Proof. split; eexists; vm_compute; reflexivity. Qed.

Lemma ValidateDeployment_replica_override_witness :
  exists required w2,
    ValidateDeployment_t (webDeployment [claimVolume "data"] 1 1)
      (webWorld (webDeployment [claimVolume "data"] 1 1) [webPod0; webPod1; webPod2])
    = deploymentReady (webDeployment [claimVolume "data"] 1 1)
                      (webDeployment [claimVolume "data"] 1 1) required w2 /\
    required = 1.
Proof.
  destruct (ValidateDeployment_replica_override idle
              (webDeployment [claimVolume "data"] 1 1)
              (webWorld (webDeployment [claimVolume "data"] 1 1) [webPod0; webPod1; webPod2])
              (webWorld (webDeployment [claimVolume "data"] 1 1) [webPod0; webPod1; webPod2])
              (webDeployment [claimVolume "data"] 1 1)
              (webWorld (webDeployment [claimVolume "data"] 1 1) [webPod0; webPod1; webPod2])
              3 eq_refl eq_refl eq_refl)
    as (required & w2 & E & _ & H1 & _).
  - intros vol source [<-|[]] [= <-]. exists dataClaim. reflexivity.
  - constructor.
  - exists required, w2. split; [exact E|]. apply H1; [reflexivity|].
    intros vol claim [<-|[]] (source & [= <-] & [= <-]).
    apply isPVCShared_false. reflexivity.
Defined.

(* ================================================================== *)
(** * Further properties: pods and their owners *)
(* ================================================================== *)

Lemma find_split {A} (f : A -> bool) (l : list A) (x : A) :
  find f l = Some x ->
  exists l1 l2, l = l1 ++ x :: l2 /\ f x = true /\ (forall y, In y l1 -> f y = false).
Proof.
  induction l as [|a l IH]; simpl; [discriminate|].
  destruct (f a) eqn:E.
  - intros [= <-]. exists [], l. split; [reflexivity|]. split; [exact E | intros y []].
  - intros H. destruct (IH H) as (l1 & l2 & -> & Hx & Hl).
    exists (a :: l1), l2. split; [reflexivity|]. split; [exact Hx|].
    intros y [<-|Hy]; auto.
Qed.

Lemma find_first {A} (f : A -> bool) (l1 l2 : list A) (x : A) :
  f x = true -> (forall y, In y l1 -> f y = false) -> find f (l1 ++ x :: l2) = Some x.
Proof.
  intros Hx. induction l1 as [|a l1 IH]; intros Hl; simpl.
  - now rewrite Hx.
  - rewrite (Hl a (or_introl eq_refl)). apply IH. intros y Hy. apply Hl. now right.
Qed.

Lemma find_none_iff {A} (f : A -> bool) (l : list A) :
  find f l = None <-> (forall y, In y l -> f y = false).
Proof.
  split.
  - intros H y Hy. exact (find_none f l H y Hy).
  - induction l as [|a l IH]; intros H; simpl; [reflexivity|].
    rewrite (H a (or_introl eq_refl)). apply IH. intros y Hy. apply H. now right.
Qed.

Lemma anyController_cases (owners : list OwnerReference) :
  (anyController owners = Return true <->
   exists l1 o l2, owners = l1 ++ o :: l2 /\ or_Controller o = Some true /\
                   forall o', In o' l1 -> or_Controller o' = Some false) /\
  (anyController owners = Return false <->
   forall o, In o owners -> or_Controller o = Some false) /\
  (anyController owners = Panic nilDeref <->
   exists l1 o l2, owners = l1 ++ o :: l2 /\ or_Controller o = None /\
                   forall o', In o' l1 -> or_Controller o' = Some false).
Proof.
  induction owners as [|a owners (IHt & IHf & IHp)]; simpl.
  - split; [|split]; split; try discriminate; try reflexivity.
    + intros (l1 & o & l2 & H & _). now destruct l1.
    + intros _ o [].
    + intros (l1 & o & l2 & H & _). now destruct l1.
  - destruct (or_Controller a) as [[|]|] eqn:E.
    + split; [|split]; split; try discriminate; try (intros _; reflexivity).
      * intros _. exists [], a, owners. split; [reflexivity|]. split; [exact E | intros o' []].
      * intros H. specialize (H a (or_introl eq_refl)). congruence.
      * intros (l1 & o & l2 & H & Ho & Hl). destruct l1 as [|b l1]; injection H as <- _.
        -- congruence.
        -- specialize (Hl a (or_introl eq_refl)). congruence.
    + split; [|split]; split.
      * intros H. apply IHt in H as (l1 & o & l2 & -> & Ho & Hl).
        exists (a :: l1), o, l2. split; [reflexivity|]. split; [exact Ho|].
        intros o' [<-|H']; auto.
      * intros (l1 & o & l2 & H & Ho & Hl). apply IHt.
        destruct l1 as [|b l1]; injection H as <- ->; [congruence|].
        exists l1, o, l2. split; [reflexivity|]. split; [exact Ho|].
        intros o' H'. apply Hl. now right.
      * intros H o [<-|Ho]; [exact E|]. now apply IHf.
      * intros H. apply IHf. intros o Ho. apply H. now right.
      * intros H. apply IHp in H as (l1 & o & l2 & -> & Ho & Hl).
        exists (a :: l1), o, l2. split; [reflexivity|]. split; [exact Ho|].
        intros o' [<-|H']; auto.
      * intros (l1 & o & l2 & H & Ho & Hl). apply IHp.
        destruct l1 as [|b l1]; injection H as <- ->; [congruence|].
        exists l1, o, l2. split; [reflexivity|]. split; [exact Ho|].
        intros o' H'. apply Hl. now right.
    + split; [|split]; split; try discriminate; try (intros _; reflexivity).
      * intros (l1 & o & l2 & H & Ho & Hl). destruct l1 as [|b l1]; injection H as <- _.
        -- congruence.
        -- specialize (Hl a (or_introl eq_refl)). congruence.
      * intros H. specialize (H a (or_introl eq_refl)). congruence.
      * intros _. exists [], a, owners. split; [reflexivity|]. split; [exact E | intros o' []].
Qed.

(** X1.  [IsPodBeingManaged] reads the owner references in order and
    stops at the first whose controller flag is not false: it returns
    true when that flag is true, whatever follows, an unset flag
    included; it panics when that flag is unset; and it returns false
    when every flag is false, in particular without owner references. *)
Theorem IsPodBeingManaged_cases (pod : Pod) :
  (IsPodBeingManaged pod = Return true <->
   exists l1 o l2, pod_OwnerReferences pod = l1 ++ o :: l2 /\ or_Controller o = Some true /\
                   forall o', In o' l1 -> or_Controller o' = Some false) /\
  (IsPodBeingManaged pod = Return false <->
   forall o, In o (pod_OwnerReferences pod) -> or_Controller o = Some false) /\
  (IsPodBeingManaged pod = Panic nilDeref <->
   exists l1 o l2, pod_OwnerReferences pod = l1 ++ o :: l2 /\ or_Controller o = None /\
                   forall o', In o' l1 -> or_Controller o' = Some false).
Proof.
  assert (E : IsPodBeingManaged pod = anyController (pod_OwnerReferences pod)).
  { unfold IsPodBeingManaged. now destruct (pod_OwnerReferences pod). }
  rewrite E. apply anyController_cases.
Qed.

Lemma IsPodBeingManaged_cases_witness : IsPodBeingManaged managedPod = Return true.
Proof.
  apply (proj2 (proj1 (IsPodBeingManaged_cases managedPod))).
  exists [{| or_Name := "gc"; or_UID := "u0"; or_Controller := Some false |}],
         {| or_Name := "rs"; or_UID := "u1"; or_Controller := Some true |},
         [unmanagedOwner].
  split; [reflexivity|]. split; [reflexivity|].
  intros o' [<-|[]]. reflexivity.
Defined.

(** X2.  When listing the namespace's pods succeeds, [GetPodByUID]
    returns the first listed pod that carries the UID, with a nil
    error, and [ErrPodsNotFound] with a nil pod when none does;
    whatever the listing does, it never returns a nil pod with a nil
    error, nor a pod with an error. *)
Theorem GetPodByUID_spec (uid : UID) (namespace : string) (w : World) :
  (forall items w',
      GetPods namespace w = (Return (inl items), w') ->
      ((forall pod, In pod items -> pod_UID pod <> uid) ->
       GetPodByUID uid namespace w = (Return (None, Some ErrPodsNotFound), w')) /\
      (forall l1 pod l2,
          items = l1 ++ pod :: l2 -> pod_UID pod = uid ->
          (forall q, In q l1 -> pod_UID q <> uid) ->
          GetPodByUID uid namespace w = (Return (Some pod, None), w'))) /\
  (forall p err w',
      GetPodByUID uid namespace w = (Return (p, err), w') ->
      (p = None <-> err <> None)).
Proof.
  split.
  - intros items w' HL. unfold GetPodByUID. rewrite (bind_eq _ _ _ _ _ HL). split.
    + intros Hnone.
      assert (E : find (fun pod => String.eqb (pod_UID pod) uid) items = None).
      { apply find_none_iff. intros y Hy. apply String.eqb_neq. now apply Hnone. }
      now rewrite E.
    + intros l1 pod l2 -> Hu Hl1.
      rewrite (find_first (fun pod => String.eqb (pod_UID pod) uid) l1 l2 pod).
      * reflexivity.
      * now apply String.eqb_eq.
      * intros y Hy. apply String.eqb_neq. now apply Hl1.
  - intros p err w'. unfold GetPodByUID. intros H.
    apply bind_Return in H as ([items|e] & w1 & _ & H).
    + destruct (find _ items); unfold ret in H; injection H as <- <- _;
        split; congruence.
    + unfold ret in H. injection H as <- <- _. split; congruence.
Qed.

Lemma GetPodByUID_spec_witness :
  GetPodByUID "pod-a" "default" (connected (set_pods [strayPod; webPod0] emptyCluster) [])
  = (Return (Some webPod0, None), connected (set_pods [strayPod; webPod0] emptyCluster) []).
Proof.
  apply (proj2 (proj1 (GetPodByUID_spec "pod-a" "default"
                         (connected (set_pods [strayPod; webPod0] emptyCluster) []))
                      [strayPod; webPod0]
                      (connected (set_pods [strayPod; webPod0] emptyCluster) []) eq_refl)
               [strayPod] webPod0 [] eq_refl eq_refl).
  intros q [<-|[]]. discriminate.
Defined.

Lemma GetPodsByOwner_owned (ownerUID : UID) (namespace : string) (w : World)
      (result : list Pod) (err : option error) (w' : World) :
  GetPodsByOwner ownerUID namespace w = (Return (result, err), w') ->
  forall pod, In pod result -> ownedBy ownerUID pod.
Proof.
  unfold GetPodsByOwner. intros H.
  apply bind_Return in H as ([items|e] & w1 & _ & H).
  - destruct (length (appendOwned ownerUID items) =? 0)%nat;
      unfold ret in H; injection H as <- _ _.
    + intros pod [].
    + intros pod Hin. now apply In_appendOwned in Hin.
  - unfold ret in H. injection H as <- _ _. intros pod [].
Qed.

(** X3.  [GetDeploymentPods] looks only at the first replica set of the
    listing that has an owner reference named like the deployment
    (the name alone is compared): the result is [GetPodsByOwner] of that
    replica set, so every pod returned is owned by it and the pods of
    any later replica set are left out; when no replica set names the
    deployment the result is a nil list with a nil error. *)
Theorem GetDeploymentPods_first_replica_set (deployment : Deployment) (w w0 : World)
        (items : list ReplicaSet) (w1 : World) :
  initK8sClient w = (Return None, w0) ->
  replicaSets_List (dep_Namespace deployment) w0 = (Return (inl items), w1) ->
  ((forall rSet, In rSet items -> namesOwner deployment rSet = false) ->
   GetDeploymentPods deployment w = (Return ([], None), w1)) /\
  (forall l1 rSet l2,
      items = l1 ++ rSet :: l2 ->
      namesOwner deployment rSet = true ->
      (forall r, In r l1 -> namesOwner deployment r = false) ->
      GetDeploymentPods deployment w = GetPodsByOwner (rs_UID rSet) (rs_Namespace rSet) w1 /\
      forall pods err w2,
        GetDeploymentPods deployment w = (Return (pods, err), w2) ->
        forall pod, In pod pods -> ownedBy (rs_UID rSet) pod).
Proof.
  intros HI HL.
  assert (E : GetDeploymentPods deployment w
              = match find (namesOwner deployment) items with
                | Some rSet => GetPodsByOwner (rs_UID rSet) (rs_Namespace rSet) w1
                | None => (Return ([], None), w1)
                end).
  { unfold GetDeploymentPods. rewrite (bind_eq _ _ _ _ _ HI), (bind_eq _ _ _ _ _ HL).
    unfold namesOwner. now destruct (find _ items). }
  split.
  - intros Hnone. apply find_none_iff in Hnone. now rewrite E, Hnone.
  - intros l1 rSet l2 -> Hr Hl.
    rewrite (find_first _ l1 l2 rSet Hr Hl) in E. split; [exact E|].
    intros pods err w2 H. rewrite E in H. eapply GetPodsByOwner_owned; eauto.
Qed.

Lemma GetDeploymentPods_first_replica_set_witness :
  GetDeploymentPods (webDeployment [] 1 1)
                    (webWorld (webDeployment [] 1 1) [webPod0; strayPod])
  = GetPodsByOwner "rs-uid" "default" (webWorld (webDeployment [] 1 1) [webPod0; strayPod]).
Proof.
  apply (proj2 (GetDeploymentPods_first_replica_set (webDeployment [] 1 1)
                  (webWorld (webDeployment [] 1 1) [webPod0; strayPod])
                  (webWorld (webDeployment [] 1 1) [webPod0; strayPod])
                  [webReplicaSet]
                  (webWorld (webDeployment [] 1 1) [webPod0; strayPod])
                  eq_refl eq_refl)
               [] webReplicaSet [] eq_refl eq_refl).
  intros r [].
Defined.

(* ================================================================== *)
(** * Further properties: sizes *)
(* ================================================================== *)

Lemma wrap64_small (z : Z) : - 2 ^ 63 <= z < 2 ^ 63 -> wrap64 z = z.
Proof.
  intros H. unfold wrap64. rewrite Z.mod_small; lia.
Qed.

Lemma wrap64_sub_l (x y : Z) : wrap64 (wrap64 x - y) = wrap64 (x - y).
Proof.
  unfold wrap64. f_equal.
  replace ((x + 2 ^ 63) mod 2 ^ 64 - 2 ^ 63 - y + 2 ^ 63)
    with ((x + 2 ^ 63) mod 2 ^ 64 + - y) by lia.
  rewrite Z.add_mod_idemp_l by lia. f_equal. lia.
Qed.

(** X4.  For a size that is not negative and a positive allocation
    unit, as long as [size + unit - 1] fits in an [int64],
    [roundUpSize] returns the number of units that cover the size: the
    least [n] with [size <= n * unit], the overflow of the intermediate
    sum [size + unit] being harmless.  A zero unit makes it panic. *)
Theorem roundUpSize_ceiling (volumeSizeBytes allocationUnitBytes : Z) :
  0 <= volumeSizeBytes -> 0 < allocationUnitBytes ->
  volumeSizeBytes + allocationUnitBytes - 1 < 2 ^ 63 ->
  exists n,
    roundUpSize volumeSizeBytes allocationUnitBytes = Return n /\
    (n - 1) * allocationUnitBytes < volumeSizeBytes <= n * allocationUnitBytes /\
    roundUpSize volumeSizeBytes 0 = Panic divideByZero.
Proof.
  intros Hs Hu Hb. unfold roundUpSize.
  destruct (allocationUnitBytes =? 0)%Z eqn:E; [apply Z.eqb_eq in E; lia|].
  rewrite wrap64_sub_l.
  rewrite (wrap64_small (volumeSizeBytes + allocationUnitBytes - 1)) by lia.
  rewrite Z.quot_div_nonneg by lia.
  set (a := volumeSizeBytes + allocationUnitBytes - 1).
  pose proof (Z.div_mod a allocationUnitBytes ltac:(lia)) as Hd.
  pose proof (Z.mod_pos_bound a allocationUnitBytes Hu) as Hm.
  assert (Hq : 0 <= a / allocationUnitBytes) by (apply Z.div_pos; lia).
  assert (Hle : a / allocationUnitBytes <= a) by (apply Z.div_le_upper_bound; nia).
  exists (a / allocationUnitBytes). rewrite wrap64_small by lia.
  split; [reflexivity|]. split; [|reflexivity]. subst a. nia.
Qed.

Lemma roundUpSize_ceiling_witness :
  exists n,
    roundUpSize 1025 512 = Return n /\
    (n - 1) * 512 < 1025 <= n * 512 /\
    roundUpSize 1025 0 = Panic divideByZero.
Proof.
  apply (roundUpSize_ceiling 1025 512); lia.
Defined.

(* ================================================================== *)
(** * Further properties: node status *)
(* ================================================================== *)

Lemma pressure_type (type : string) :
  String.eqb type NodeOutOfDisk || String.eqb type NodeMemoryPressure
  || String.eqb type NodeDiskPressure || String.eqb type NodeNetworkUnavailable = true
  <-> In type [NodeOutOfDisk; NodeMemoryPressure; NodeDiskPressure; NodeNetworkUnavailable].
Proof.
  rewrite !orb_true_iff, !String.eqb_eq. simpl. intuition auto.
Qed.

Lemma healthy_step (name : string) (c : NodeCondition) (rest : list NodeCondition) :
  (healthy c /\ checkConditions name (c :: rest) = checkConditions name rest) \/
  (~ healthy c /\ checkConditions name (c :: rest) = Some (notReady name c)).
Proof.
  unfold healthy. simpl checkConditions.
  destruct (String.eqb (cond_Type c) NodeReady) eqn:ER.
  - apply String.eqb_eq in ER.
    destruct (String.eqb (cond_Status c) ConditionTrue) eqn:ES; simpl.
    + left. split; [|reflexivity]. apply String.eqb_eq in ES.
      split; [auto|]. rewrite ER. simpl. intros [H'|[H'|[H'|[H'|[]]]]]; discriminate H'.
    + right. split; [|reflexivity]. intros [H _]. apply String.eqb_neq in ES. auto.
  - apply String.eqb_neq in ER.
    destruct (_ || _ || _ || _) eqn:EP.
    + apply pressure_type in EP.
      destruct (String.eqb (cond_Status c) ConditionFalse) eqn:ES; simpl.
      * left. split; [|reflexivity]. apply String.eqb_eq in ES. split; tauto.
      * right. split; [|reflexivity]. intros [_ H]. apply String.eqb_neq in ES. auto.
    + left. split; [|reflexivity]. split; [tauto|].
      intros HP. apply pressure_type in HP. congruence.
Qed.

Lemma checkConditions_None (name : string) (conditions : list NodeCondition) :
  checkConditions name conditions = None <-> (forall c, In c conditions -> healthy c).
Proof.
  induction conditions as [|c rest IH].
  - simpl. split; [intros _ c [] | reflexivity].
  - destruct (healthy_step name c rest) as [[Hh E]|[Hn E]]; rewrite E.
    + rewrite IH. split.
      * intros H x [<-|Hx]; auto.
      * intros H x Hx. apply H. now right.
    + split; [discriminate|]. intros H. elim Hn. apply H. now left.
Qed.

Lemma checkConditions_Some (name : string) (conditions : list NodeCondition) (e : error) :
  checkConditions name conditions = Some e ->
  exists l1 c l2,
    conditions = l1 ++ c :: l2 /\ ~ healthy c /\ e = notReady name c /\
    forall x, In x l1 -> healthy x.
Proof.
  induction conditions as [|c rest IH]; [discriminate|].
  destruct (healthy_step name c rest) as [[Hh E]|[Hn E]]; rewrite E.
  - intros H. destruct (IH H) as (l1 & x & l2 & -> & Hx & He & Hl).
    exists (c :: l1), x, l2. split; [reflexivity|]. split; [exact Hx|]. split; [exact He|].
    intros y [<-|Hy]; auto.
  - intros [= <-]. exists [], c, rest. split; [reflexivity|]. split; [exact Hn|].
    split; [reflexivity | intros x []].
Qed.

Section NodeStatusFacts.

Variable conditionsOf : Node -> list NodeCondition.
Variable addressesOf : Node -> list NodeAddress.

(** X5.  Once the node is fetched, [IsNodeReady] returns nil exactly
    when every [Ready] condition of its status is [True] and every
    out-of-disk, memory-pressure, disk-pressure and network-unavailable
    condition is [False]; other conditions are not looked at, and a
    node that reports no condition at all is ready.  Otherwise the
    error names the first condition that is not as wanted. *)
Theorem IsNodeReady_spec (name : string) (w : World) (node : Node) (w' : World) :
  GetNodeByName name w = (Return (inl node), w') ->
  (IsNodeReady conditionsOf name w = (Return None, w') <->
   forall c, In c (conditionsOf node) -> healthy c) /\
  (forall e,
      IsNodeReady conditionsOf name w = (Return (Some e), w') ->
      exists l1 c l2,
        conditionsOf node = l1 ++ c :: l2 /\ ~ healthy c /\ e = notReady name c /\
        forall x, In x l1 -> healthy x).
Proof.
  intros HG.
  assert (E : IsNodeReady conditionsOf name w
              = (Return (checkConditions name (conditionsOf node)), w')).
  { unfold IsNodeReady. now rewrite (bind_eq _ _ _ _ _ HG). }
  rewrite E. split.
  - rewrite <- checkConditions_None. split; [now intros [= ->] | now intros ->].
  - intros e [= H]. now apply checkConditions_Some.
Qed.

Lemma matchesIP_true (addresses : list string) (node : Node) :
  matchesIP addressesOf addresses node = true <->
  exists addr, In addr (addressesOf node) /\
               (addr_Type addr = NodeExternalIP \/ addr_Type addr = NodeInternalIP) /\
               In (addr_Address addr) addresses.
Proof.
  unfold matchesIP. rewrite existsb_exists. split.
  - intros (addr & Hin & H). apply andb_true_iff in H as [Ht Ha].
    apply orb_true_iff in Ht. rewrite !String.eqb_eq in Ht.
    apply existsb_exists in Ha as (ip & Hip & Heq). apply String.eqb_eq in Heq.
    exists addr. split; [exact Hin|]. split; [exact Ht|]. now rewrite Heq.
  - intros (addr & Hin & Ht & Ha). exists addr. split; [exact Hin|].
    apply andb_true_iff. split.
    + apply orb_true_iff. now rewrite !String.eqb_eq.
    + apply existsb_exists. exists (addr_Address addr). split; [exact Ha|].
      apply String.eqb_refl.
Qed.

(** X6.  When listing the nodes succeeds, [SearchNodeByAddresses]
    returns a listed node that matches one of the addresses by IP
    address, by hostname address or by hostname label, in that order of
    preference over the whole listing: a node matching by hostname is
    returned only if no listed node matches by IP address, and one
    matching by label only if no listed node matches by IP or hostname
    address.  It fails exactly when no listed node matches in any of
    the three ways. *)
Theorem SearchNodeByAddresses_spec (addresses : list string) (w : World)
        (items : list Node) (w' : World) :
  GetNodes w = (Return (inl items), w') ->
  (forall node err,
      SearchNodeByAddresses addressesOf addresses w = (Return (Some node, err), w') ->
      err = None /\ In node items /\
      (matchesIP addressesOf addresses node = true \/
       (matchesHostname addressesOf addresses node = true /\
        forall m, In m items -> matchesIP addressesOf addresses m = false) \/
       (matchesLabel addresses node = true /\
        forall m, In m items ->
                  matchesIP addressesOf addresses m = false /\
                  matchesHostname addressesOf addresses m = false))) /\
  ((exists e, SearchNodeByAddresses addressesOf addresses w = (Return (None, Some e), w')) <->
   forall m, In m items ->
             matchesIP addressesOf addresses m = false /\
             matchesHostname addressesOf addresses m = false /\
             matchesLabel addresses m = false) /\
  (forall l1 node l2,
      items = l1 ++ node :: l2 ->
      matchesIP addressesOf addresses node = true ->
      (forall m, In m l1 -> matchesIP addressesOf addresses m = false) ->
      SearchNodeByAddresses addressesOf addresses w = (Return (Some node, None), w')).
Proof.
  intros HG.
  assert (E : SearchNodeByAddresses addressesOf addresses w
              = match find (matchesIP addressesOf addresses) items with
                | Some node => (Return (Some node, None), w')
                | None =>
                    match find (matchesHostname addressesOf addresses) items with
                    | Some node => (Return (Some node, None), w')
                    | None =>
                        match find (matchesLabel addresses) items with
                        | Some node => (Return (Some node, None), w')
                        | None =>
                            (Return
                               (None,
                                Some (ErrorString
                                        ("failed to find k8s node for given addresses: "
                                           ++ formatStrings addresses)%string)), w')
                        end
                    end
                end).
  { unfold SearchNodeByAddresses. rewrite (bind_eq _ _ _ _ _ HG).
    destruct (find (matchesIP _ _) items); [reflexivity|].
    destruct (find (matchesHostname _ _) items); [reflexivity|].
    destruct (find (matchesLabel _) items); reflexivity. }
  rewrite E. clear E.
  destruct (find (matchesIP addressesOf addresses) items) as [n1|] eqn:E1.
  { apply find_some in E1 as E1'. destruct E1' as [Hin1 Hm1].
    split; [|split].
    - intros node err [= <- <-]. auto.
    - split; [intros (e & H); discriminate|].
      intros H. destruct (H n1 Hin1) as [H1 _]. congruence.
    - intros l1 node l2 -> Hm Hl. rewrite (find_first _ l1 l2 node Hm Hl) in E1.
      now injection E1 as <-. }
  pose proof (proj1 (find_none_iff _ _) E1) as N1.
  destruct (find (matchesHostname addressesOf addresses) items) as [n2|] eqn:E2.
  { apply find_some in E2 as [Hin2 Hm2]. split; [|split].
    - intros node err [= <- <-]. split; [reflexivity|]. split; [exact Hin2|].
      right. left. auto.
    - split; [intros (e & H); discriminate|].
      intros H. destruct (H n2 Hin2) as (_ & H2 & _). congruence.
    - intros l1 node l2 -> Hm _. rewrite (N1 node) in Hm; [discriminate|].
      apply in_or_app. right. now left. }
  pose proof (proj1 (find_none_iff _ _) E2) as N2.
  destruct (find (matchesLabel addresses) items) as [n3|] eqn:E3.
  { apply find_some in E3 as [Hin3 Hm3]. split; [|split].
    - intros node err [= <- <-]. split; [reflexivity|]. split; [exact Hin3|].
      right. right. auto.
    - split; [intros (e & H); discriminate|].
      intros H. destruct (H n3 Hin3) as (_ & _ & H3). congruence.
    - intros l1 node l2 -> Hm _. rewrite (N1 node) in Hm; [discriminate|].
      apply in_or_app. right. now left. }
  pose proof (proj1 (find_none_iff _ _) E3) as N3.
  split; [|split].
  - intros node err H. discriminate.
  - split; [auto | eauto].
  - intros l1 node l2 -> Hm _. rewrite (N1 node) in Hm; [discriminate|].
    apply in_or_app. right. now left.
Qed.

End NodeStatusFacts.

Lemma IsNodeReady_spec_witness :
  IsNodeReady sampleConditions "node-a" twoNodes = (Return None, twoNodes).
Proof.
  apply (proj2 (proj1 (IsNodeReady_spec sampleConditions "node-a" twoNodes
                         (namedNode "node-a" "host-a") twoNodes eq_refl))).
  intros c [<-|[<-|[]]]; split; simpl; intros H; try reflexivity; try discriminate H;
    repeat (destruct H as [H|H]; try discriminate H); destruct H.
Defined.

(** A node listed later that matches by IP address wins over an
    earlier one that matches by hostname. *)
Lemma SearchNodeByAddresses_spec_witness :
  SearchNodeByAddresses sampleAddresses ["10.0.0.2"] twoNodes
  = (Return (Some (namedNode "node-b" "host-b"), None), twoNodes).
Proof.
  apply (proj2 (proj2 (SearchNodeByAddresses_spec sampleAddresses ["10.0.0.2"] twoNodes
                         [namedNode "node-a" "host-a"; namedNode "node-b" "host-b"]
                         twoNodes eq_refl))
               [namedNode "node-a" "host-a"] (namedNode "node-b" "host-b") [] eq_refl eq_refl).
  intros m [<-|[]]. reflexivity.
Defined.

(* ================================================================== *)
(** * Further properties: what ends a polling loop *)
(* ================================================================== *)

(** Runs through a poll body, case by case, down to its returns. *)
Ltac walk H :=
  repeat first
    [ discriminate H
    | match type of H with
      | bind _ _ _ = _ => apply bind_Return in H as (? & ? & _ & H)
      | ret _ _ = _ => unfold ret in H
      | panic _ _ = _ => unfold panic in H
      | context [match ?x with _ => _ end] => destruct x
      | context [if ?b then _ else _] => destruct b
      end
    | progress cbn beta iota in H ].

Ltac flagged H :=
  walk H; injection H as _ <- _ _; reflexivity.

Section PollFacts.

Variable sleep : Duration -> World -> World.

(** X7.  The poll bodies of [CordonNode], [UnCordonNode] and
    [WaitForPodDeletion] have no fatal outcome: whenever one of them
    returns an error, a failed client initialisation and a failed read
    or write of the API included, it asks to be polled again. *)
Theorem node_polls_never_fatal (nodeName : string) (uid : UID) (namespace : string) :
  neverFatal (CordonNode_t nodeName) /\
  neverFatal (UnCordonNode_t nodeName) /\
  neverFatal (WaitForPodDeletion_t uid namespace).
Proof.
  split; [|split]; intros w out retry e w' H.
  - unfold CordonNode_t in H. flagged H.
  - unfold UnCordonNode_t in H. flagged H.
  - unfold WaitForPodDeletion_t in H. flagged H.
Qed.

(** X8.  The poll bodies of [ValidateDeployment] and
    [ValidateStatefulSet] have no fatal outcome either: a failed fetch
    of the workload or of one of its claims, a failed pod lookup and
    every unmet readiness condition all ask to be polled again. *)
Theorem readiness_polls_never_fatal (deployment : Deployment) (statefulset : StatefulSet) :
  neverFatal (ValidateDeployment_t deployment) /\
  neverFatal (ValidateStatefulSet_t statefulset).
Proof.
  split; intros w out retry e w' H.
  - unfold ValidateDeployment_t in H. walk H; try (now inversion H);
      unfold deploymentReady in H; flagged H.
  - unfold ValidateStatefulSet_t in H. flagged H.
Qed.

(** X9.  Nor have the poll bodies of [ValidateTerminatedDeployment] and
    [ValidateTerminatedStatefulSet]: a fetch error that is not a "not
    found", a failed pod lookup and pods that remain all ask to be
    polled again. *)
Theorem terminated_polls_never_fatal (deployment : Deployment) (statefulset : StatefulSet) :
  neverFatal (ValidateTerminatedDeployment_t deployment) /\
  neverFatal (ValidateTerminatedStatefulSet_t statefulset).
Proof.
  split; intros w out retry e w' H.
  - unfold ValidateTerminatedDeployment_t in H. flagged H.
  - unfold ValidateTerminatedStatefulSet_t in H. flagged H.
Qed.

(** X10.  The poll body of [ValidateJob] ends the polling with an error
    in one case only: the job was fetched and its status counts a
    failed pod.  A job that cannot be fetched is polled again: the
    poll answers with the error of the fetch and the retry flag, and
    the executor sleeps and polls once more, or returns that error at
    the deadline. *)
Theorem ValidateJob_fatal_only_on_failed_pods (name namespace : string) (w : World) :
  (forall out e w',
      ValidateJob_t name namespace w = (Return (out, false, Some e), w') ->
      exists job,
        GetJob name namespace w = (Return (inl job), w') /\ 0 < job_Failed job) /\
  (forall e w',
      GetJob name namespace w = (Return (inr e), w') ->
      ValidateJob_t name namespace w = (Return (INil, true, Some e), w') /\
      retriesWith sleep (ValidateJob_t name namespace) (10 * Second) w (Some e) w').
Proof.
  split.
  - intros out e w' H. unfold ValidateJob_t in H.
    apply bind_Return in H as ([job|e0] & w1 & HG & H); [|discriminate].
    unfold ret, jobVerdict in H.
    destruct (job_Failed job >? 0)%Z eqn:F.
    + injection H as _ _ <-. exists job. split; [exact HG|]. now apply Z.gtb_lt.
    + destruct (job_Active job >? 0)%Z; [discriminate|].
      destruct (job_Succeeded job =? 0)%Z; discriminate.
  - intros e w' HG.
    assert (E : ValidateJob_t name namespace w = (Return (INil, true, Some e), w')).
    { unfold ValidateJob_t. now rewrite (bind_eq _ _ _ _ _ HG). }
    split; [exact E|]. intros fuel timeout elapsed n. split; intros Hd.
    + now apply retry_loop_again with (out := INil) (err := Some e).
    + exists INil. now apply retry_loop_deadline.
Qed.

End PollFacts.

Lemma node_polls_never_fatal_witness : true = true.
Proof.
  exact (proj1 (node_polls_never_fatal "node-1" "pod-a" "default")
               (connected emptyCluster []) INil true
               (ErrorString (notFound "nodes" "node-1")) (connected emptyCluster [])
               eq_refl).
Defined.

Lemma readiness_polls_never_fatal_witness : true = true.
Proof.
  exact (proj2 (readiness_polls_never_fatal idleDeployment dbSet)
               (connected emptyCluster []) (IString "") true
               (ErrorString (notFound "statefulsets.apps" "db")) (connected emptyCluster [])
               eq_refl).
Defined.

Lemma terminated_polls_never_fatal_witness : true = true.
Proof.
  exact (proj2 (terminated_polls_never_fatal idleDeployment dbSet)
               (connected emptyCluster [Some "connection refused"]) (IString "") true
               (ErrorString "connection refused") (connected emptyCluster [])
               eq_refl).
Defined.

Lemma ValidateJob_fatal_only_on_failed_pods_witness :
  exists job,
    GetJob "backup" "default" (jobWorld (mkJob 0 2 1))
    = (Return (inl job), jobWorld (mkJob 0 2 1)) /\ 0 < job_Failed job.
Proof.
  apply (proj1 (ValidateJob_fatal_only_on_failed_pods idle "backup" "default"
                  (jobWorld (mkJob 0 2 1)))
               INil (ErrorString "job: [default] backup has 1 failed pod(s)")
               (jobWorld (mkJob 0 2 1))).
  vm_compute. reflexivity.
Defined.

(* ================================================================== *)
(** * Further properties: draining *)
(* ================================================================== *)

Lemma initK8sClient_error w e w' :
  initK8sClient w = (Return (Some e), w') -> exists msg, e = ErrorString msg.
Proof.
  unfold initK8sClient. destruct (client w); [discriminate|].
  intros H. walk H; injection H as <- _; eauto.
Qed.

Lemma GetPods_error namespace w e w' :
  GetPods namespace w = (Return (inr e), w') -> exists msg, e = ErrorString msg.
Proof.
  unfold GetPods. intros H.
  apply bind_Return in H as ([e0|] & w1 & HI & H).
  - unfold ret in H. injection H as <- _. eapply initK8sClient_error; eauto.
  - apply bind_Return in H as ([items|msg] & w2 & _ & H); [discriminate|].
    unfold ret in H. injection H as <- _. eauto.
Qed.

(** A poll of [WaitForPodDeletion] reports a nil error only after a
    listing of the namespace that holds no pod with the UID. *)
Lemma WaitForPodDeletion_t_nil uid namespace w out retry w' :
  WaitForPodDeletion_t uid namespace w = (Return (out, retry, None), w') ->
  retry = false /\
  exists w0 items,
    GetPods namespace w0 = (Return (inl items), w') /\
    forall pod, In pod items -> pod_UID pod <> uid.
Proof.
  intros H. unfold WaitForPodDeletion_t in H.
  apply bind_Return in H as ([e0|] & wa & _ & H); [discriminate|].
  apply bind_Return in H as ([p err] & wb & HG & H).
  unfold GetPodByUID in HG.
  apply bind_Return in HG as ([items|e1] & wc & HL & HG).
  - destruct (find (fun pod => String.eqb (pod_UID pod) uid) items) as [pod|] eqn:F;
      unfold ret in HG; injection HG as <- <- <-; [discriminate|].
    unfold ret in H. simpl in H. injection H as _ <- <-. split; [reflexivity|].
    exists wa, items. split; [exact HL|].
    intros pod Hin. apply String.eqb_neq. exact (find_none _ _ F pod Hin).
  - unfold ret in HG. injection HG as <- <- <-.
    apply GetPods_error in HL as (msg & ->). discriminate.
Qed.

Section DrainFacts.

Variable sleep : Duration -> World -> World.

(** X11.  [WaitForPodDeletion] returns nil only when its last poll
    listed the namespace and found no pod with the UID there; the world
    it leaves is the one right after that listing. *)
Theorem WaitForPodDeletion_nil_pod_gone (uid : UID) (namespace : string)
        (timeout : Duration) (w w' : World) :
  WaitForPodDeletion sleep uid namespace timeout w = (Return None, w') ->
  exists w0 items,
    GetPods namespace w0 = (Return (inl items), w') /\
    forall pod, In pod items -> pod_UID pod <> uid.
Proof.
  intros H. apply runTask_last in H as (w0 & w1 & out & retry & Ht & ->).
  apply WaitForPodDeletion_t_nil in Ht as [-> Ht]. exact Ht.
Qed.

(** A listing made once the client is set up is the listing made
    before: [GetPods] sets up the client itself. *)
Lemma GetPods_after_init namespace w wa :
  initK8sClient w = (Return None, wa) -> GetPods namespace w = GetPods namespace wa.
Proof.
  intros HI. unfold GetPods.
  rewrite (bind_eq _ _ _ _ _ HI).
  now rewrite (bind_eq _ _ _ _ _ (initK8sClient_connected wa (initK8sClient_ok w wa HI))).
Qed.

(** A poll of [WaitForPodDeletion] reports a nil error only when the
    listing of the namespace, from the world the poll starts in, holds
    no pod with the UID; the poll leaves the world of that listing. *)
Lemma WaitForPodDeletion_t_gone uid namespace w out retry w' :
  WaitForPodDeletion_t uid namespace w = (Return (out, retry, None), w') ->
  retry = false /\
  exists items,
    GetPods namespace w = (Return (inl items), w') /\
    forall pod, In pod items -> pod_UID pod <> uid.
Proof.
  intros H. unfold WaitForPodDeletion_t in H.
  apply bind_Return in H as ([e0|] & wa & HI & H); [discriminate|].
  apply bind_Return in H as ([p err] & wb & HG & H).
  unfold GetPodByUID in HG.
  apply bind_Return in HG as ([items|e1] & wc & HL & HG).
  - destruct (find (fun pod => String.eqb (pod_UID pod) uid) items) as [pod|] eqn:F;
      unfold ret in HG; injection HG as <- <- <-; [discriminate|].
    unfold ret in H. simpl in H. injection H as _ <- <-. split; [reflexivity|].
    exists items. split; [now rewrite (GetPods_after_init _ _ _ HI)|].
    intros pod Hin. apply String.eqb_neq. exact (find_none _ _ F pod Hin).
  - unfold ret in HG. injection HG as <- <- <-.
    apply GetPods_error in HL as (msg & ->). discriminate.
Qed.

(** The waits of [DrainPodsFromNode] end with nil only when each pod,
    in turn, was seen gone. *)
Lemma waitEach_seenGone (pods : list Pod) (timeout : Duration) :
  forall w w',
    waitEach sleep pods timeout w = (Return None, w') -> seenGone sleep pods w w'.
Proof.
  induction pods as [|a pods IH]; intros w w' H; simpl in H.
  - unfold ret in H. now injection H as <-.
  - apply bind_Return in H as ([e|] & w1 & HW & H); [discriminate|].
    apply (runTask_reached sleep (WaitForPodDeletion_t (pod_UID a) (pod_Namespace a))
             timeout (5 * Second)) in HW as (w0 & w2 & out & retry & Hp & Ht & ->).
    apply WaitForPodDeletion_t_gone in Ht as [-> (items & HL & Hn)].
    simpl. exists w0, items, w2. split; [exact Hp|]. split; [exact HL|].
    split; [exact Hn|]. now apply IH.
Qed.

(** X12.  [DrainPodsFromNode] returns nil only after the node was
    cordoned and a deletion was accepted for every pod.  With a
    positive timeout it then waited for each pod in turn: the polls for
    a pod, started where the wait for the pod before it ended (the
    first where the deletions ended), came to a listing of the pod's
    namespace without a pod of its UID, and the last listing left the
    world the drain ends in.  With a timeout that is zero or negative
    it ends where the deletions ended, without a single such
    listing. *)
Theorem Drain_nil_pods_gone (nodeName : string) (pods : list Pod) (timeout : Duration)
        (w w' : World) :
  DrainPodsFromNode sleep nodeName pods timeout w = (Return None, w') ->
  exists w1 w2,
    CordonNode sleep nodeName w = (Return None, w1) /\
    DeletePods pods false w1 = (Return None, w2) /\
    (0 < timeout -> seenGone sleep pods w2 w') /\
    (timeout <= 0 -> w' = w2).
Proof.
  intros H. unfold DrainPodsFromNode in H.
  apply bind_Return in H as ([e|] & w1 & HC & H); [discriminate|].
  apply bind_Return in H as ([e|] & w2 & HD & H).
  { apply bind_Return in H as (e' & w3 & _ & H). discriminate. }
  exists w1, w2. split; [exact HC|]. split; [exact HD|]. split.
  - intros Ht. apply Z.ltb_lt in Ht. rewrite Ht in H.
    now apply (waitEach_seenGone pods timeout).
  - intros Ht. assert (E : (0 <? timeout)%Z = false) by (apply Z.ltb_ge; lia).
    rewrite E in H. unfold ret in H. now injection H as <-.
Qed.

End DrainFacts.

(** Once the deletions of a first part of the list are accepted, the
    loop goes on with the rest. *)
Lemma deleteEach_app (l1 rest : list Pod) :
  forall w w1,
    deleteEach l1 w = (Return None, w1) -> deleteEach (l1 ++ rest) w = deleteEach rest w1.
Proof.
  induction l1 as [|a l1 IH]; intros w w1 H; simpl in H.
  - unfold ret in H. now injection H as <-.
  - apply bind_Return in H as ([[]|e] & w0 & HD & H); [|discriminate].
    simpl. rewrite (bind_eq _ _ _ _ _ HD). now apply IH.
Qed.

(** An error of the loop is the error of a refused deletion, the
    deletions before it having been accepted. *)
Lemma deleteEach_error (podList : list Pod) :
  forall w e w',
    deleteEach podList w = (Return (Some e), w') ->
    exists l1 p l2 w1 msg,
      podList = l1 ++ p :: l2 /\
      deleteEach l1 w = (Return None, w1) /\
      pods_Delete (pod_Namespace p) (pod_Name p) w1 = (Return (inr msg), w') /\
      e = ErrorString msg.
Proof.
  induction podList as [|a podList IH]; intros w e w' H; simpl in H; [discriminate|].
  apply bind_Return in H as ([[]|msg] & w0 & HD & H).
  - apply IH in H as (l1 & p & l2 & w1 & m & -> & HE & HP & ->).
    exists (a :: l1), p, l2, w1, m. split; [reflexivity|]. split; [|now split].
    simpl. now rewrite (bind_eq _ _ _ _ _ HD).
  - unfold ret in H. injection H as <- <-.
    exists [], a, podList, w, msg. now repeat split.
Qed.

(** X13.  [DeletePods] returns an error exactly when the client cannot
    be set up or a deletion is refused.  The error is that of the first
    refused deletion, the deletions of the pods before it having been
    accepted, and no deletion is asked for the pods after it: the call
    ends in the world the refusal left.  The [force] flag plays no part
    in this. *)
Theorem DeletePods_first_refusal (podList : list Pod) (force : bool) (w : World)
        (e : error) (w' : World) :
  DeletePods podList force w = (Return (Some e), w') <->
  initK8sClient w = (Return (Some e), w') \/
  exists l1 p l2 w1 msg,
    podList = l1 ++ p :: l2 /\
    DeletePods l1 force w = (Return None, w1) /\
    pods_Delete (pod_Namespace p) (pod_Name p) w1 = (Return (inr msg), w') /\
    e = ErrorString msg.
Proof.
  unfold DeletePods. split.
  - intros H. apply bind_Return in H as ([e0|] & w0 & HI & H).
    + unfold ret in H. injection H as <- <-. now left.
    + right. apply deleteEach_error in H as (l1 & p & l2 & w1 & msg & -> & HE & HP & ->).
      exists l1, p, l2, w1, msg. split; [reflexivity|]. split; [|now split].
      now rewrite (bind_eq _ _ _ _ _ HI).
  - intros [HI|(l1 & p & l2 & w1 & msg & -> & HE & HP & ->)].
    + now rewrite (bind_eq _ _ _ _ _ HI).
    + apply bind_Return in HE as ([e0|] & w0 & HI & HE); [discriminate|].
      rewrite (bind_eq _ _ _ _ _ HI), (deleteEach_app _ _ _ _ HE). simpl.
      now rewrite (bind_eq _ _ _ _ _ HP).
Qed.

Lemma WaitForPodDeletion_nil_pod_gone_witness :
  exists w0 items,
    GetPods "default" w0 = (Return (inl items), connected emptyCluster []) /\
    forall pod, In pod items -> pod_UID pod <> "pod-a".
Proof.
  apply (WaitForPodDeletion_nil_pod_gone idle "pod-a" "default" (30 * Second)
           (connected emptyCluster []) (connected emptyCluster [])).
  vm_compute. reflexivity.
Defined.

Lemma DeletePods_first_refusal_witness :
  DeletePods [webPod0; strayPod] false
    (connected (set_pods [webPod0; strayPod] emptyCluster) [None; Some "pods is forbidden"])
  = (Return (Some (ErrorString "pods is forbidden")),
     connected (set_pods [strayPod] emptyCluster) []).
Proof.
  apply (proj2 (DeletePods_first_refusal [webPod0; strayPod] false
                  (connected (set_pods [webPod0; strayPod] emptyCluster)
                             [None; Some "pods is forbidden"])
                  (ErrorString "pods is forbidden")
                  (connected (set_pods [strayPod] emptyCluster) []))).
  right.
  exists [webPod0], strayPod, [],
    (connected (set_pods [strayPod] emptyCluster) [Some "pods is forbidden"]),
    "pods is forbidden".
  repeat split.
Defined.

Lemma Drain_nil_pods_gone_witness :
  exists w1 w2,
    CordonNode idle "node-1" (connected (set_nodes [schedulableNode]
                                           (set_pods [webPod0] emptyCluster))
                                        [None; None; None; Some "etcdserver: request timed out"])
    = (Return None, w1) /\
    DeletePods [webPod0] false w1 = (Return None, w2) /\
    (0 < 30 * Second ->
     seenGone idle [webPod0] w2 (connected (set_nodes [cordonedNode] emptyCluster) [])) /\
    (30 * Second <= 0 -> connected (set_nodes [cordonedNode] emptyCluster) [] = w2).
Proof.
  apply (Drain_nil_pods_gone idle "node-1" [webPod0] (30 * Second)
           (connected (set_nodes [schedulableNode] (set_pods [webPod0] emptyCluster))
                      [None; None; None; Some "etcdserver: request timed out"])
           (connected (set_nodes [cordonedNode] emptyCluster) [])).
  vm_compute. reflexivity.
Defined.

(* ================================================================== *)
(** * Further properties: writing a node back *)
(* ================================================================== *)

Lemma quiet_step (k : nat) (w w' : World) :
  quiet (S k) w -> faults w' = tl (faults w) ->
  hd None (faults w) = None /\ quiet k w'.
Proof.
  intros H E. apply quiet_S in H as [Hh Hq]. split; [exact Hh|].
  unfold quiet in *. simpl in Hq. now rewrite E.
Qed.

Lemma findNode_found (name : string) (w : World) (node : Node) :
  findNode name w = Some node ->
  node_Name node = name /\
  existsb (fun m => String.eqb (node_Name m) (node_Name node)) (nodes (cluster w)) = true.
Proof.
  unfold findNode. intros H. apply find_some in H as [Hin Hn].
  apply String.eqb_eq in Hn. split; [exact Hn|].
  apply existsb_exists. exists node. split; [exact Hin | apply String.eqb_refl].
Qed.

Lemma findNode_stored (n : Node) (c : Cluster) (w : World) (k : nat) :
  existsb (fun m => String.eqb (node_Name m) (node_Name n)) (nodes c) = true ->
  findNode (node_Name n) (after k (storeNode n c) w) = Some n.
Proof.
  intros H. unfold findNode, after, storeNode. simpl. now apply find_replaced.
Qed.

Lemma nodes_Get_quiet (name : string) (w : World) (node : Node) :
  hd None (faults w) = None ->
  findNode name w = Some node ->
  nodes_Get name w = (Return (inl node), after 1 (cluster w) w).
Proof.
  intros Hq Hf. unfold nodes_Get. rewrite request_quiet by exact Hq.
  unfold findNode in Hf. now rewrite Hf.
Qed.

Lemma nodes_Update_quiet (n : Node) (w : World) :
  hd None (faults w) = None ->
  existsb (fun m => String.eqb (node_Name m) (node_Name n)) (nodes (cluster w)) = true ->
  nodes_Update n w = (Return (inl n), after 1 (storeNode n (cluster w)) w).
Proof.
  intros Hq He. unfold nodes_Update. rewrite request_quiet by exact Hq.
  now rewrite He.
Qed.

Lemma GetNodeByName_quiet (name : string) (w : World) (node : Node) :
  client w = true -> hd None (faults w) = None -> findNode name w = Some node ->
  GetNodeByName name w = (Return (inl node), after 1 (cluster w) w).
Proof.
  intros Hc Hq Hf. unfold GetNodeByName.
  rewrite (bind_eq _ _ _ _ _ (initK8sClient_connected w Hc)).
  now rewrite (bind_eq _ _ _ _ _ (nodes_Get_quiet name w node Hq Hf)).
Qed.

(** One poll of [CordonNode] when nothing is in its way. *)
Lemma CordonNode_t_quiet (name : string) (w : World) (node : Node) :
  client w = true -> findNode name w = Some node -> quiet 2 w ->
  CordonNode_t name w
  = (Return (INil, false, None),
     after 2 (storeNode (set_Unschedulable true node) (cluster w)) w).
Proof.
  intros Hc Hf Hq. destruct (findNode_found _ _ _ Hf) as [Hn He].
  destruct (quiet_step 1 w (after 1 (cluster w) w) Hq eq_refl) as [Hh Hq1].
  destruct (quiet_step 0 _ (after 2 (cluster w) w) Hq1 eq_refl) as [Hh1 _].
  unfold CordonNode_t.
  rewrite (bind_eq _ _ _ _ _ (initK8sClient_connected w Hc)).
  rewrite (bind_eq _ _ _ _ _ (GetNodeByName_quiet name w node Hc Hh Hf)).
  rewrite (bind_eq _ _ _ _ _ (nodes_Update_quiet (set_Unschedulable true node) _ Hh1 He)).
  reflexivity.
Qed.

(** One poll of [UnCordonNode] when nothing is in its way. *)
Lemma UnCordonNode_t_quiet (name : string) (w : World) (node : Node) :
  client w = true -> findNode name w = Some node -> quiet 2 w ->
  UnCordonNode_t name w
  = (Return (INil, false, None),
     after 2 (storeNode (set_Unschedulable false node) (cluster w)) w).
Proof.
  intros Hc Hf Hq. destruct (findNode_found _ _ _ Hf) as [Hn He].
  destruct (quiet_step 1 w (after 1 (cluster w) w) Hq eq_refl) as [Hh Hq1].
  destruct (quiet_step 0 _ (after 2 (cluster w) w) Hq1 eq_refl) as [Hh1 _].
  unfold UnCordonNode_t.
  rewrite (bind_eq _ _ _ _ _ (initK8sClient_connected w Hc)).
  rewrite (bind_eq _ _ _ _ _ (GetNodeByName_quiet name w node Hc Hh Hf)).
  rewrite (bind_eq _ _ _ _ _ (nodes_Update_quiet (set_Unschedulable false node) _ Hh1 He)).
  reflexivity.
Qed.

Lemma quiet_le (k n : nat) (w : World) : (k <= n)%nat -> quiet n w -> quiet k w.
Proof.
  unfold quiet. generalize (faults w) as l. revert n.
  induction k as [|k IH]; intros n l Hle H; [constructor|].
  destruct n as [|n]; [lia|]. destruct l as [|f l]; [constructor|].
  simpl in *. inversion H; subst. constructor; [reflexivity|].
  apply (IH n); [lia | assumption].
Qed.

Lemma quiet_after (k j : nat) (c : Cluster) (w : World) :
  quiet (j + k) w -> quiet k (after j c w).
Proof.
  revert w. induction j as [|j IH]; intros w H; [exact H|].
  simpl in H. destruct (quiet_step _ w (after 1 c w) H eq_refl) as [_ H1].
  specialize (IH _ H1). unfold quiet, after in *. simpl in *.
  replace (tl (Nat.iter j (@tl _) (faults w))) with (Nat.iter j (@tl _) (tl (faults w))).
  - exact IH.
  - clear. induction j; simpl; [reflexivity|]. now rewrite IHj.
Qed.

Section CordonFacts.

Variable sleep : Duration -> World -> World.

Lemma runTask_stop t timeout interval w out err w1 :
  t w = (Return (out, false, err), w1) ->
  runTask sleep t timeout interval w = (Return err, w1).
Proof.
  intros E. unfold runTask, bind, DoRetryWithTimeout, DoRetryTrace.
  rewrite (retry_loop_stop sleep _ _ _ _ _ _ _ _ _ _ E). now destruct err.
Qed.

(** The poll body of [CordonNode] reports a nil error only after
    writing the node back with the unschedulable flag set. *)
Lemma CordonNode_t_nil nodeName w out retry w1 :
  CordonNode_t nodeName w = (Return (out, retry, None), w1) ->
  retry = false /\ cordonState nodeName w1 = Some true.
Proof.
  intros H. unfold CordonNode_t in H.
  apply bind_Return in H as ([e|] & wa & _ & H); [discriminate|].
  apply bind_Return in H as ([n|e] & wb & HG & H); [|discriminate].
  apply bind_Return in H as ([m|e] & wc & HU & H); [|discriminate].
  unfold ret in H. injection H as _ <- <-. split; [reflexivity|].
  apply GetNodeByName_name in HG. apply nodes_Update_stored in HU.
  simpl in HU. rewrite HG in HU. unfold cordonState. now rewrite HU.
Qed.

(** X14.  [CordonNode] returns nil only after an accepted update of the
    node: in the world it leaves, the node is there and unschedulable. *)
Theorem CordonNode_nil_cordoned (nodeName : string) (w w' : World) :
  CordonNode sleep nodeName w = (Return None, w') ->
  cordonState nodeName w' = Some true.
Proof.
  intros H. apply runTask_last in H as (w0 & w1 & out & retry & Ht & ->).
  apply CordonNode_t_nil in Ht as [-> Hs]. exact Hs.
Qed.

(** X15.  With the client connected, the node in the store and the next
    four requests going through, [CordonNode] followed by
    [UnCordonNode] both return nil at their first poll; a read finds
    the node unschedulable in between and schedulable afterwards, its
    name and labels untouched, so that a node that was schedulable is
    found exactly as it was. *)
Theorem cordon_uncordon_round_trip (name : string) (w : World) (node : Node) :
  client w = true -> findNode name w = Some node -> quiet 4 w ->
  exists w1 w2,
    CordonNode sleep name w = (Return None, w1) /\
    findNode name w1 = Some (set_Unschedulable true node) /\
    UnCordonNode sleep name w1 = (Return None, w2) /\
    findNode name w2 = Some (set_Unschedulable false node) /\
    (node_Unschedulable node = false -> findNode name w2 = Some node).
Proof.
  intros Hc Hf Hq. destruct (findNode_found _ _ _ Hf) as [Hn He].
  set (c1 := storeNode (set_Unschedulable true node) (cluster w)).
  set (w1 := after 2 c1 w).
  assert (Hq2 : quiet 2 w) by (apply (quiet_le 2 4); [lia | exact Hq]).
  assert (Hf1 : findNode name w1 = Some (set_Unschedulable true node)).
  { rewrite <- Hn. apply (findNode_stored (set_Unschedulable true node)). exact He. }
  assert (Hq1 : quiet 2 w1) by (apply (quiet_after 2 2); exact Hq).
  set (c2 := storeNode (set_Unschedulable false (set_Unschedulable true node)) (cluster w1)).
  set (w2 := after 2 c2 w1).
  destruct (findNode_found _ _ _ Hf1) as [_ He1].
  assert (Hf2 : findNode name w2 = Some (set_Unschedulable false node)).
  { rewrite <- Hn.
    apply (findNode_stored (set_Unschedulable false (set_Unschedulable true node))).
    exact He1. }
  exists w1, w2. split; [|split; [|split; [|split]]].
  - apply runTask_stop with (out := INil). now apply CordonNode_t_quiet.
  - exact Hf1.
  - apply runTask_stop with (out := INil). now apply UnCordonNode_t_quiet.
  - exact Hf2.
  - intros Hu. rewrite Hf2. f_equal. destruct node. simpl in *. now subst.
Qed.

(** X16.  Under the same conditions [CordonNode] is idempotent: a
    second call returns nil as the first did, and a read finds the same
    node after it as before it. *)
Theorem cordon_twice (name : string) (w : World) (node : Node) :
  client w = true -> findNode name w = Some node -> quiet 4 w ->
  exists w1 w2,
    CordonNode sleep name w = (Return None, w1) /\
    CordonNode sleep name w1 = (Return None, w2) /\
    findNode name w2 = findNode name w1 /\
    findNode name w1 = Some (set_Unschedulable true node).
Proof.
  intros Hc Hf Hq. destruct (findNode_found _ _ _ Hf) as [Hn He].
  set (c1 := storeNode (set_Unschedulable true node) (cluster w)).
  set (w1 := after 2 c1 w).
  assert (Hq2 : quiet 2 w) by (apply (quiet_le 2 4); [lia | exact Hq]).
  assert (Hf1 : findNode name w1 = Some (set_Unschedulable true node)).
  { rewrite <- Hn. apply (findNode_stored (set_Unschedulable true node)). exact He. }
  assert (Hq1 : quiet 2 w1) by (apply (quiet_after 2 2); exact Hq).
  set (c2 := storeNode (set_Unschedulable true (set_Unschedulable true node)) (cluster w1)).
  set (w2 := after 2 c2 w1).
  destruct (findNode_found _ _ _ Hf1) as [_ He1].
  exists w1, w2. split; [|split; [|split]].
  - apply runTask_stop with (out := INil). now apply CordonNode_t_quiet.
  - apply runTask_stop with (out := INil). now apply CordonNode_t_quiet.
  - rewrite Hf1. rewrite <- Hn.
    apply (findNode_stored (set_Unschedulable true (set_Unschedulable true node))).
    exact He1.
  - exact Hf1.
Qed.

End CordonFacts.

Lemma CordonNode_nil_cordoned_witness :
  cordonState "node-1" (connected (set_nodes [cordonedNode] emptyCluster) []) = Some true.
Proof.
  apply (CordonNode_nil_cordoned idle "node-1"
           (connected (set_nodes [schedulableNode] emptyCluster) [])).
  vm_compute. reflexivity.
Defined.

Lemma cordon_uncordon_round_trip_witness :
  exists w1 w2,
    CordonNode idle "node-1" (connected (set_nodes [schedulableNode] emptyCluster) [])
    = (Return None, w1) /\
    findNode "node-1" w1 = Some (set_Unschedulable true schedulableNode) /\
    UnCordonNode idle "node-1" w1 = (Return None, w2) /\
    findNode "node-1" w2 = Some (set_Unschedulable false schedulableNode) /\
    (node_Unschedulable schedulableNode = false ->
     findNode "node-1" w2 = Some schedulableNode).
Proof.
  apply (cordon_uncordon_round_trip idle "node-1"
           (connected (set_nodes [schedulableNode] emptyCluster) []) schedulableNode).
  - reflexivity.
  - reflexivity.
  - constructor.
Defined.

Lemma cordon_twice_witness :
  exists w1 w2,
    CordonNode idle "node-1" (connected (set_nodes [schedulableNode] emptyCluster) [])
    = (Return None, w1) /\
    CordonNode idle "node-1" w1 = (Return None, w2) /\
    findNode "node-1" w2 = findNode "node-1" w1 /\
    findNode "node-1" w1 = Some (set_Unschedulable true schedulableNode).
Proof.
  apply (cordon_twice idle "node-1"
           (connected (set_nodes [schedulableNode] emptyCluster) []) schedulableNode).
  - reflexivity.
  - reflexivity.
  - constructor.
Defined.

(* ================================================================== *)
(** * Further properties: labels *)
(* ================================================================== *)

Lemma iter_tl_tl {A} (n : nat) (l : list A) :
  Nat.iter n (@tl A) (tl l) = tl (Nat.iter n (@tl A) l).
Proof.
  induction n as [|n IH]; simpl; [reflexivity|]. now rewrite IH.
Qed.

Lemma after_after (j k : nat) (c c' : Cluster) (w : World) :
  after k c' (after j c w) = after (j + k) c' w.
Proof.
  unfold after. simpl. f_equal.
  induction j as [|j IH]; simpl; [reflexivity|].
  rewrite <- IH. clear IH. induction k as [|k IH]; simpl; [reflexivity|]. now rewrite IH.
Qed.

Lemma findNode_after (name : string) (k : nat) (w : World) :
  findNode name (after k (cluster w) w) = findNode name w.
Proof. reflexivity. Qed.

Lemma GetLabelsOnNode_quiet (name : string) (w : World) (node : Node) :
  client w = true -> hd None (faults w) = None -> findNode name w = Some node ->
  GetLabelsOnNode name w = (Return (node_Labels node, None), after 1 (cluster w) w).
Proof.
  intros Hc Hq Hf. unfold GetLabelsOnNode.
  now rewrite (bind_eq _ _ _ _ _ (GetNodeByName_quiet name w node Hc Hq Hf)).
Qed.

(** One pass of the loop of [AddLabelOnNode] whose update is accepted. *)
Lemma addLabelLoop_write (n : nat) (err : option error) (name key value : string)
      (w : World) (node : Node) (labels : gmap string string) :
  findNode name w = Some node -> node_Labels node = Some labels ->
  labels !! key <> Some value -> quiet 2 w ->
  addLabelLoop (S n) err name key value w
  = (Return None,
     after 2 (storeNode (set_Labels (<[key := value]> labels) node) (cluster w)) w).
Proof.
  intros Hf Hl Hne Hq. destruct (findNode_found _ _ _ Hf) as [Hn He].
  destruct (quiet_step 1 w (after 1 (cluster w) w) Hq eq_refl) as [Hh Hq1].
  destruct (quiet_step 0 _ (after 2 (cluster w) w) Hq1 eq_refl) as [Hh1 _].
  simpl addLabelLoop.
  rewrite (bind_eq _ _ _ _ _ (nodes_Get_quiet name w node Hh Hf)). rewrite Hl.
  assert (E : match labels !! key with
              | Some val => String.eqb val value
              | None => false
              end = false).
  { destruct (labels !! key) as [val|] eqn:L; [|reflexivity].
    apply String.eqb_neq. congruence. }
  rewrite E.
  rewrite (bind_eq _ _ _ _ _
             (nodes_Update_quiet (set_Labels (<[key := value]> labels) node) _ Hh1 He)).
  reflexivity.
Qed.

(** One pass that finds the label already there with the value. *)
Lemma addLabelLoop_present (n : nat) (err : option error) (name key value : string)
      (w : World) (node : Node) (labels : gmap string string) :
  findNode name w = Some node -> node_Labels node = Some labels ->
  labels !! key = Some value -> hd None (faults w) = None ->
  addLabelLoop (S n) err name key value w = (Return None, after 1 (cluster w) w).
Proof.
  intros Hf Hl He Hh. simpl addLabelLoop.
  rewrite (bind_eq _ _ _ _ _ (nodes_Get_quiet name w node Hh Hf)).
  rewrite Hl, He, String.eqb_refl. reflexivity.
Qed.

(** Passes whose updates are refused are spent without a trace. *)
Lemma addLabelLoop_refused_more (name key value : string) (node : Node)
      (labels : gmap string string) (c : bool) (store : Cluster) (err : option error)
      (n : nat) :
  find (fun m => String.eqb (node_Name m) name) (nodes store) = Some node ->
  node_Labels node = Some labels ->
  labels !! key <> Some value ->
  forall (refusals : list string) (rest : list (option string)),
    addLabelLoop (length refusals + n) err name key value
                 {| client := c; cluster := store; faults := refuseUpdates refusals ++ rest |}
    = addLabelLoop n err name key value {| client := c; cluster := store; faults := rest |}.
Proof.
  intros Hfind Hlabels Hne. induction refusals as [|msg refusals IH]; intros rest.
  - reflexivity.
  - simpl. unfold bind at 1. unfold nodes_Get at 1, request at 1. simpl.
    rewrite Hfind, Hlabels.
    assert (E : match labels !! key with
                | Some val => String.eqb val value
                | None => false
                end = false).
    { destruct (labels !! key) as [val|] eqn:L; [|reflexivity].
      apply String.eqb_neq. congruence. }
    rewrite E. unfold bind at 1. unfold nodes_Update at 1, request at 1. simpl.
    apply IH.
Qed.

(** X17.  [AddLabelOnNode] reports a failed read of the node, and only
    that: when fewer than [labelUpdateMaxRetries] updates were refused
    and the read that follows fails, the error returned is the one of
    that read, the refusals before it are dropped, and the store is as
    it was. *)
Theorem AddLabelOnNode_reports_failed_read (name key value : string) (w w0 : World)
        (node : Node) (labels : gmap string string) (refusals : list string)
        (msg : string) (rest : list (option string)) :
  initK8sClient w = (Return None, w0) ->
  findNode name w0 = Some node ->
  node_Labels node = Some labels ->
  labels !! key <> Some value ->
  (length refusals < labelUpdateMaxRetries)%nat ->
  faults w0 = refuseUpdates refusals ++ Some msg :: rest ->
  AddLabelOnNode name key value w
  = (Return (Some (ErrorString msg)),
     {| client := client w0; cluster := cluster w0; faults := rest |}).
Proof.
  intros HI Hfind Hlabels Hne Hlen Hfaults.
  unfold AddLabelOnNode. rewrite (bind_eq _ _ _ _ _ HI).
  destruct w0 as [c store script]. unfold findNode in Hfind.
  simpl in Hfind, Hfaults. subst script. simpl client. simpl cluster.
  replace labelUpdateMaxRetries
    with (length refusals + S (labelUpdateMaxRetries - length refusals - 1))%nat by lia.
  rewrite (addLabelLoop_refused_more name key value node labels c store None _
             Hfind Hlabels Hne).
  reflexivity.
Qed.

(** X18.  With the client connected, the node in the store with a label
    map and the next three requests going through, [AddLabelOnNode]
    returns nil and a following [GetLabelsOnNode] returns a map that
    holds the value under the key and is the old map everywhere
    else. *)
Theorem AddLabelOnNode_then_get (name key value : string) (w : World) (node : Node)
        (labels : gmap string string) :
  client w = true -> findNode name w = Some node -> node_Labels node = Some labels ->
  quiet 3 w ->
  exists w1 w2 m,
    AddLabelOnNode name key value w = (Return None, w1) /\
    GetLabelsOnNode name w1 = (Return (Some m, None), w2) /\
    m !! key = Some value /\
    (forall k, k <> key -> m !! k = labels !! k).
Proof.
  intros Hc Hf Hl Hq. destruct (findNode_found _ _ _ Hf) as [Hn He].
  unfold AddLabelOnNode. rewrite (bind_eq _ _ _ _ _ (initK8sClient_connected w Hc)).
  unfold labelUpdateMaxRetries.
  destruct (decide (labels !! key = Some value)) as [Heq|Hne].
  - assert (Hh : hd None (faults w) = None)
      by apply (quiet_step 2 w (after 1 (cluster w) w) Hq eq_refl).
    rewrite (addLabelLoop_present _ _ _ _ _ _ _ _ Hf Hl Heq Hh).
    set (w1 := after 1 (cluster w) w).
    assert (Hq1 : quiet 2 w1) by (apply (quiet_after 2 1); exact Hq).
    assert (Hh1 : hd None (faults w1) = None)
      by apply (quiet_step 1 w1 (after 1 (cluster w1) w1) Hq1 eq_refl).
    exists w1, (after 1 (cluster w1) w1), labels.
    split; [reflexivity|]. split; [|split; [exact Heq | reflexivity]].
    rewrite (GetLabelsOnNode_quiet name w1 node Hc Hh1 Hf). now rewrite Hl.
  - assert (Hq2 : quiet 2 w) by (apply (quiet_le 2 3); [lia | exact Hq]).
    rewrite (addLabelLoop_write _ _ _ _ _ _ _ _ Hf Hl Hne Hq2).
    set (n' := set_Labels (<[key := value]> labels) node).
    set (w1 := after 2 (storeNode n' (cluster w)) w).
    assert (Hf1 : findNode name w1 = Some n').
    { rewrite <- Hn. apply (findNode_stored n'). exact He. }
    assert (Hq1 : quiet 1 w1) by (apply (quiet_after 1 2); exact Hq).
    assert (Hh1 : hd None (faults w1) = None)
      by apply (quiet_step 0 w1 (after 1 (cluster w1) w1) Hq1 eq_refl).
    exists w1, (after 1 (cluster w1) w1), (<[key := value]> labels).
    split; [reflexivity|]. split; [|split].
    + now rewrite (GetLabelsOnNode_quiet name w1 n' Hc Hh1 Hf1).
    + apply lookup_insert_eq.
    + intros k Hk. now apply lookup_insert_ne.
Qed.

(** X19.  When the node already holds the value under the key,
    [AddLabelOnNode] returns nil after a single read: no update is
    sent and the store is untouched. *)
Theorem AddLabelOnNode_already_there (name key value : string) (w : World) (node : Node)
        (labels : gmap string string) :
  client w = true -> findNode name w = Some node -> node_Labels node = Some labels ->
  labels !! key = Some value -> hd None (faults w) = None ->
  AddLabelOnNode name key value w = (Return None, after 1 (cluster w) w).
Proof.
  intros Hc Hf Hl He Hh. unfold AddLabelOnNode, labelUpdateMaxRetries.
  rewrite (bind_eq _ _ _ _ _ (initK8sClient_connected w Hc)).
  now apply addLabelLoop_present with (node := node) (labels := labels).
Qed.

(** One pass of the loop of [RemoveLabelOnNode] whose update is
    accepted. *)
Lemma removeLabelLoop_write (n : nat) (err : option error) (name key : string)
      (w : World) (node : Node) (labels : gmap string string) :
  findNode name w = Some node -> node_Labels node = Some labels ->
  labels !! key <> None -> quiet 2 w ->
  removeLabelLoop (S n) err name key w
  = (Return None,
     after 2 (storeNode (set_Labels (delete key labels) node) (cluster w)) w).
Proof.
  intros Hf Hl Hne Hq. destruct (findNode_found _ _ _ Hf) as [Hn He].
  destruct (quiet_step 1 w (after 1 (cluster w) w) Hq eq_refl) as [Hh Hq1].
  destruct (quiet_step 0 _ (after 2 (cluster w) w) Hq1 eq_refl) as [Hh1 _].
  simpl removeLabelLoop.
  rewrite (bind_eq _ _ _ _ _ (nodes_Get_quiet name w node Hh Hf)). rewrite Hl.
  destruct (labels !! key) as [val|] eqn:L; [|congruence].
  rewrite (bind_eq _ _ _ _ _
             (nodes_Update_quiet (set_Labels (delete key labels) node) _ Hh1 He)).
  reflexivity.
Qed.

(** Passes that do not find the key, a nil label map read as empty,
    send no update and go on to the next read. *)
Lemma removeLabelLoop_absent (err : option error) (name key : string) (node : Node) :
  (forall labels, node_Labels node = Some labels -> labels !! key = None) ->
  forall (n : nat) (w : World),
    findNode name w = Some node -> quiet n w ->
    removeLabelLoop n err name key w = (Return err, after n (cluster w) w).
Proof.
  intros Habs. induction n as [|n IH]; intros w Hf Hq.
  - destruct w; reflexivity.
  - destruct (quiet_step n w (after 1 (cluster w) w) Hq eq_refl) as [Hh Hq1].
    simpl removeLabelLoop.
    rewrite (bind_eq _ _ _ _ _ (nodes_Get_quiet name w node Hh Hf)).
    assert (E : match node_Labels node with
                | Some labels => match labels !! key with Some _ => true | None => false end
                | None => false
                end = false).
    { destruct (node_Labels node) as [labels|] eqn:L; [|reflexivity].
      now rewrite (Habs labels eq_refl). }
    rewrite E. rewrite (IH (after 1 (cluster w) w) Hf Hq1).
    f_equal. unfold after. simpl. f_equal. apply iter_tl_tl.
Qed.

(** X20.  With the client connected, the node in the store holding the
    key and the next three requests going through, [RemoveLabelOnNode]
    returns nil and a following [GetLabelsOnNode] returns, with a nil
    error, a map, nil or not, in which the key reads as absent and
    every other key reads as in the old map. *)
Theorem RemoveLabelOnNode_then_get (name key : string) (w : World) (node : Node)
        (labels : gmap string string) :
  client w = true -> findNode name w = Some node -> node_Labels node = Some labels ->
  labels !! key <> None -> quiet 3 w ->
  exists w1 w2 m,
    RemoveLabelOnNode name key w = (Return None, w1) /\
    GetLabelsOnNode name w1 = (Return (m, None), w2) /\
    labelOf m key = None /\
    (forall k, k <> key -> labelOf m k = labels !! k).
Proof.
  intros Hc Hf Hl Hne Hq. destruct (findNode_found _ _ _ Hf) as [Hn He].
  unfold RemoveLabelOnNode, labelUpdateMaxRetries.
  rewrite (bind_eq _ _ _ _ _ (initK8sClient_connected w Hc)).
  assert (Hq2 : quiet 2 w) by (apply (quiet_le 2 3); [lia | exact Hq]).
  rewrite (removeLabelLoop_write _ _ _ _ _ _ _ Hf Hl Hne Hq2).
  set (n' := set_Labels (delete key labels) node).
  set (w1 := after 2 (storeNode n' (cluster w)) w).
  assert (Hf1 : findNode name w1 = Some n').
  { rewrite <- Hn. apply (findNode_stored n'). exact He. }
  assert (Hq1 : quiet 1 w1) by (apply (quiet_after 1 2); exact Hq).
  assert (Hh1 : hd None (faults w1) = None)
    by apply (quiet_step 0 w1 (after 1 (cluster w1) w1) Hq1 eq_refl).
  exists w1, (after 1 (cluster w1) w1), (Some (delete key labels)).
  split; [reflexivity|]. split; [|split].
  - now rewrite (GetLabelsOnNode_quiet name w1 n' Hc Hh1 Hf1).
  - apply lookup_delete_eq.
  - intros k Hk. now apply lookup_delete_ne.
Qed.

(** X21.  On a node that does not hold the key, a nil label map
    included, [RemoveLabelOnNode] reads the node
    [labelUpdateMaxRetries] times, sends no update, leaves the store
    untouched and returns nil: the absent label is no error, and the
    nil map is only read, never written. *)
Theorem RemoveLabelOnNode_absent_label (name key : string) (w : World) (node : Node) :
  client w = true -> findNode name w = Some node ->
  (forall labels, node_Labels node = Some labels -> labels !! key = None) ->
  quiet labelUpdateMaxRetries w ->
  RemoveLabelOnNode name key w
  = (Return None, after labelUpdateMaxRetries (cluster w) w).
Proof.
  intros Hc Hf Habs Hq. unfold RemoveLabelOnNode.
  rewrite (bind_eq _ _ _ _ _ (initK8sClient_connected w Hc)).
  now apply removeLabelLoop_absent with (node := node).
Qed.

(** X22.  Adding a label the node does not hold and removing it again
    puts the node back as it was, when the four requests go
    through. *)
Theorem add_remove_label_round_trip (name key value : string) (w : World) (node : Node)
        (labels : gmap string string) :
  client w = true -> findNode name w = Some node -> node_Labels node = Some labels ->
  labels !! key = None -> quiet 4 w ->
  exists w1 w2,
    AddLabelOnNode name key value w = (Return None, w1) /\
    RemoveLabelOnNode name key w1 = (Return None, w2) /\
    findNode name w2 = Some node.
Proof.
  intros Hc Hf Hl Hnone Hq. destruct (findNode_found _ _ _ Hf) as [Hn He].
  assert (Hne : labels !! key <> Some value) by congruence.
  assert (Hq2 : quiet 2 w) by (apply (quiet_le 2 4); [lia | exact Hq]).
  set (n1 := set_Labels (<[key := value]> labels) node).
  set (w1 := after 2 (storeNode n1 (cluster w)) w).
  assert (Hf1 : findNode name w1 = Some n1).
  { rewrite <- Hn. apply (findNode_stored n1). exact He. }
  destruct (findNode_found _ _ _ Hf1) as [Hn1 He1].
  assert (Hq1 : quiet 2 w1) by (apply (quiet_after 2 2); exact Hq).
  exists w1, (after 2 (storeNode (set_Labels (delete key (<[key := value]> labels)) n1)
                                 (cluster w1)) w1).
  split; [|split].
  - unfold AddLabelOnNode, labelUpdateMaxRetries.
    rewrite (bind_eq _ _ _ _ _ (initK8sClient_connected w Hc)).
    now rewrite (addLabelLoop_write _ _ _ _ _ _ _ _ Hf Hl Hne Hq2).
  - unfold RemoveLabelOnNode, labelUpdateMaxRetries.
    rewrite (bind_eq _ _ _ _ _ (initK8sClient_connected w1 Hc)).
    apply removeLabelLoop_write with (node := n1); auto.
    rewrite lookup_insert_eq. discriminate.
  - rewrite delete_insert_id by exact Hnone.
    replace (set_Labels labels n1) with node.
    + rewrite <- Hn at 1.
      replace name with (node_Name node) in He1 by exact Hn.
      apply (findNode_stored node). exact He1.
    + destruct node as [nm lb us]. simpl in *. subst lb. reflexivity.
Qed.

Lemma AddLabelOnNode_reports_failed_read_witness :
  AddLabelOnNode "node-1" "zone" "a"
    (connected (set_nodes [schedulableNode] emptyCluster)
               (refuseUpdates ["conflict 1"; "conflict 2"] ++ [Some "etcd unavailable"]))
  = (Return (Some (ErrorString "etcd unavailable")),
     connected (set_nodes [schedulableNode] emptyCluster) []).
Proof.
  refine (AddLabelOnNode_reports_failed_read "node-1" "zone" "a"
            (connected (set_nodes [schedulableNode] emptyCluster)
               (refuseUpdates ["conflict 1"; "conflict 2"] ++ [Some "etcd unavailable"]))
            (connected (set_nodes [schedulableNode] emptyCluster)
               (refuseUpdates ["conflict 1"; "conflict 2"] ++ [Some "etcd unavailable"]))
            schedulableNode (<["role" := "worker"]> ∅) ["conflict 1"; "conflict 2"]
            "etcd unavailable" [] eq_refl eq_refl eq_refl _ _ eq_refl).
  - vm_compute. discriminate.
  - unfold labelUpdateMaxRetries. simpl. lia.
Defined.

Lemma AddLabelOnNode_then_get_witness :
  exists w1 w2 m,
    AddLabelOnNode "node-1" "zone" "a"
      (connected (set_nodes [schedulableNode] emptyCluster) []) = (Return None, w1) /\
    GetLabelsOnNode "node-1" w1 = (Return (Some m, None), w2) /\
    m !! "zone" = Some "a" /\
    (forall k, k <> "zone" -> m !! k = (<["role" := "worker"]> ∅ : gmap string string) !! k).
Proof.
  apply (AddLabelOnNode_then_get "node-1" "zone" "a"
           (connected (set_nodes [schedulableNode] emptyCluster) []) schedulableNode).
  - reflexivity.
  - reflexivity.
  - reflexivity.
  - constructor.
Defined.

Lemma AddLabelOnNode_already_there_witness :
  AddLabelOnNode "node-1" "role" "worker"
    (connected (set_nodes [schedulableNode] emptyCluster) [])
  = (Return None, connected (set_nodes [schedulableNode] emptyCluster) []).
Proof.
  apply (AddLabelOnNode_already_there "node-1" "role" "worker"
           (connected (set_nodes [schedulableNode] emptyCluster) []) schedulableNode
           (<["role" := "worker"]> ∅)).
  - reflexivity.
  - reflexivity.
  - reflexivity.
  - vm_compute. reflexivity.
  - reflexivity.
Defined.

Lemma RemoveLabelOnNode_then_get_witness :
  exists w1 w2 m,
    RemoveLabelOnNode "node-1" "role"
      (connected (set_nodes [schedulableNode] emptyCluster) []) = (Return None, w1) /\
    GetLabelsOnNode "node-1" w1 = (Return (m, None), w2) /\
    labelOf m "role" = None /\
    (forall k, k <> "role" ->
               labelOf m k = (<["role" := "worker"]> ∅ : gmap string string) !! k).
Proof.
  apply (RemoveLabelOnNode_then_get "node-1" "role"
           (connected (set_nodes [schedulableNode] emptyCluster) []) schedulableNode).
  - reflexivity.
  - reflexivity.
  - reflexivity.
  - vm_compute. discriminate.
  - constructor.
Defined.

Lemma RemoveLabelOnNode_absent_label_witness :
  RemoveLabelOnNode "node-1" "zone"
    (connected (set_nodes [unlabelledNode] emptyCluster) [])
  = (Return None, connected (set_nodes [unlabelledNode] emptyCluster) []).
Proof.
  apply (RemoveLabelOnNode_absent_label "node-1" "zone"
           (connected (set_nodes [unlabelledNode] emptyCluster) []) unlabelledNode).
  - reflexivity.
  - reflexivity.
  - intros labels H. discriminate H.
  - constructor.
Defined.

Lemma add_remove_label_round_trip_witness :
  exists w1 w2,
    AddLabelOnNode "node-1" "zone" "a"
      (connected (set_nodes [schedulableNode] emptyCluster) []) = (Return None, w1) /\
    RemoveLabelOnNode "node-1" "zone" w1 = (Return None, w2) /\
    findNode "node-1" w2 = Some schedulableNode.
Proof.
  apply (add_remove_label_round_trip "node-1" "zone" "a"
           (connected (set_nodes [schedulableNode] emptyCluster) []) schedulableNode
           (<["role" := "worker"]> ∅)).
  - reflexivity.
  - reflexivity.
  - reflexivity.
  - vm_compute. reflexivity.
  - constructor.
Defined.

(* ================================================================== *)
(** * Further properties: the client, services, stateful sets *)
(* ================================================================== *)

(** X23.  Once [initK8sClient] has succeeded, a further call returns
    nil without a request and leaves everything as it is: the client
    configuration is loaded and the server probed once. *)
Theorem initK8sClient_once (w w' : World) :
  initK8sClient w = (Return None, w') -> initK8sClient w' = (Return None, w').
Proof.
  intros H. apply initK8sClient_connected. exact (initK8sClient_ok w w' H).
Qed.

Lemma initK8sClient_once_witness :
  initK8sClient (connected emptyCluster []) = (Return None, connected emptyCluster []).
Proof.
  apply (initK8sClient_once
           {| client := false; cluster := emptyCluster; faults := [None; None] |}).
  reflexivity.
Defined.

Section ServiceFacts.

Variable services_Get : string -> string -> M (Service + string).

(** X24.  [ValidateDeletedService] returns nil whenever [GetService]
    finds the service: the check for a deleted service passes on a
    service that is still there.  It returns an error only where
    [GetService] returns one too. *)
Theorem ValidateDeletedService_accepts_existing (svcName svcNS : string) (w w' : World) :
  (forall svc,
      GetService services_Get svcName svcNS w = (Return (Some svc, None), w') ->
      ValidateDeletedService services_Get svcName svcNS w = (Return None, w')) /\
  (forall e,
      ValidateDeletedService services_Get svcName svcNS w = (Return (Some e), w') ->
      exists e', GetService services_Get svcName svcNS w = (Return (None, Some e'), w')).
Proof.
  unfold GetService, ValidateDeletedService. split.
  - intros svc H.
    apply bind_Return in H as ([e|] & w1 & HI & H); [discriminate|].
    rewrite (bind_eq _ _ _ _ _ HI).
    destruct (String.eqb svcName ""); [discriminate|].
    apply bind_Return in H as ([s|e] & w2 & HG & H); [|discriminate].
    rewrite (bind_eq _ _ _ _ _ HG). unfold ret in *. now injection H as _ <-.
  - intros e H.
    apply bind_Return in H as ([e0|] & w1 & HI & H); rewrite (bind_eq _ _ _ _ _ HI).
    + unfold ret in *. injection H as _ <-. eauto.
    + destruct (String.eqb svcName "").
      * unfold ret in *. injection H as _ <-. eauto.
      * apply bind_Return in H as ([s|msg] & w2 & HG & H); [discriminate|].
        rewrite (bind_eq _ _ _ _ _ HG).
        destruct (matchNotFound msg); [discriminate|].
        unfold ret in *. injection H as _ <-. eauto.
Qed.

End ServiceFacts.

Lemma ValidateDeletedService_accepts_existing_witness :
  ValidateDeletedService everyService "frontend" "default" (connected emptyCluster [])
  = (Return None, connected emptyCluster []).
Proof.
  apply (proj1 (ValidateDeletedService_accepts_existing everyService "frontend" "default"
                  (connected emptyCluster []) (connected emptyCluster []))
               {| svc_Name := "frontend"; svc_Namespace := "default" |}).
  reflexivity.
Defined.

Section StatefulSetFacts.

Variable sleep : Duration -> World -> World.

(** The poll body of [ValidateStatefulSet] reports a nil error only
    when it asks for no further poll and found the stateful set
    converged. *)
Lemma ValidateStatefulSet_t_nil statefulset w out retry w1 :
  ValidateStatefulSet_t statefulset w = (Return (out, retry, None), w1) ->
  retry = false /\
  exists sset pods wa wb,
    statefulSets_Get (ss_Namespace statefulset) (ss_Name statefulset) wa
    = (Return (inl sset), wb) /\
    GetStatefulSetPods statefulset wb = (Return (pods, None), w1) /\
    pods <> [] /\
    ss_Replicas sset = Some (ss_StatusReplicas sset) /\
    ss_StatusReadyReplicas sset = ss_StatusReplicas sset /\
    (forall pod, In pod pods -> IsPodReady pod = true).
Proof.
  unfold ValidateStatefulSet_t. intros H.
  apply bind_Return in H as ([e|] & wa & _ & H); [discriminate|].
  apply bind_Return in H as ([sset|e] & wb & HG & H); [|discriminate].
  apply bind_Return in H as ([pods err] & wc & HP & H).
  destruct err as [e|]; [discriminate|].
  destruct pods as [|pod pods]; [discriminate|].
  cbn [orb isNil length Nat.eqb] in H.
  destruct (ss_Replicas sset) as [replicas|] eqn:R; [|discriminate].
  destruct (replicas =? ss_StatusReplicas sset)%Z eqn:E1; [|discriminate].
  destruct (replicas =? ss_StatusReadyReplicas sset)%Z eqn:E2; [|discriminate].
  cbn [negb] in H.
  destruct (firstNotReady (pod :: pods)) as [p|] eqn:F; [discriminate|].
  unfold ret in H. injection H as _ <- <-.
  apply Z.eqb_eq in E1, E2. split; [reflexivity|].
  exists sset, (pod :: pods), wa, wb.
  split; [exact HG|]. split; [exact HP|]. split; [discriminate|].
  split; [now rewrite <- E1|]. split; [congruence|].
  intros q Hq. unfold firstNotReady in F.
  pose proof (find_none _ _ F q Hq) as N. now apply negb_false_iff in N.
Qed.

(** X25.  [ValidateStatefulSet] returns nil only on a converged
    stateful set: its last poll read the stateful set and its pods
    without error, found at least one pod, the replica count of the
    spec equal to the replica and ready-replica counts of the status,
    and every pod owned by the stateful set and ready. *)
Theorem ValidateStatefulSet_nil_converged (statefulset : StatefulSet) (timeout : Duration)
        (w w' : World) :
  ValidateStatefulSet sleep statefulset timeout w = (Return None, w') ->
  exists sset pods wa wb,
    statefulSets_Get (ss_Namespace statefulset) (ss_Name statefulset) wa
    = (Return (inl sset), wb) /\
    GetStatefulSetPods statefulset wb = (Return (pods, None), w') /\
    pods <> [] /\
    ss_Replicas sset = Some (ss_StatusReplicas sset) /\
    ss_StatusReadyReplicas sset = ss_StatusReplicas sset /\
    (forall pod, In pod pods ->
                 IsPodReady pod = true /\ ownedBy (ss_UID statefulset) pod).
Proof.
  intros H. apply runTask_last in H as (w0 & w1 & out & retry & Ht & ->).
  apply ValidateStatefulSet_t_nil in Ht
    as [-> (sset & pods & wa & wb & HG & HP & Hne & HR & HS & Hready)].
  exists sset, pods, wa, wb. repeat (split; [assumption|]).
  intros pod Hin. split; [now apply Hready|].
  exact (GetPodsByOwner_owned _ _ _ _ _ _ HP pod Hin).
Qed.

End StatefulSetFacts.

Lemma ValidateStatefulSet_nil_converged_witness :
  exists sset pods wa wb,
    statefulSets_Get (ss_Namespace readySet) (ss_Name readySet) wa
    = (Return (inl sset), wb) /\
    GetStatefulSetPods readySet wb = (Return (pods, None), readySetWorld) /\
    pods <> [] /\
    ss_Replicas sset = Some (ss_StatusReplicas sset) /\
    ss_StatusReadyReplicas sset = ss_StatusReplicas sset /\
    (forall pod, In pod pods ->
                 IsPodReady pod = true /\ ownedBy (ss_UID readySet) pod).
Proof.
  apply (ValidateStatefulSet_nil_converged idle readySet (30 * Second) readySetWorld).
  vm_compute. reflexivity.
Defined.

(** X26.  A pod that [IsPodReady] accepts is one that [IsPodRunning]
    accepts. *)
Theorem ready_pod_is_running (pod : Pod) :
  IsPodReady pod = true -> IsPodRunning pod = true.
Proof.
  intros H. apply IsPodReady_true in H as [Hi Hc]. apply IsPodRunning_true.
  split; [exact Hi|]. intros c Hin. now destruct (Hc c Hin).
Qed.

Lemma ready_pod_is_running_witness : IsPodRunning webPod0 = true.
Proof.
  apply (ready_pod_is_running webPod0). reflexivity.
Defined.
